(** * Maiz-Automatas: the drought recognisers of [prueba.py]

    A shallow embedding of the three recognisers of [prueba.py]:
    - the class [DFA] (attributes [estado], [cont_t], [cont_h]; methods
      [reset], [step], [run]),
    - the class [PDA] (method [acepta]),
    - [detectar_patrones], together with the small part of Python's [re]
      that the two compiled patterns use.

    A Python [str] is a [list ascii]; iterating it yields its characters.
    Python integers are unbounded: the DFA counters are [Z], the PDA's
    index [i], which only ever counts up from 0, is a [nat]. *)

From Stdlib Require Import String Ascii List ZArith Lia Bool Arith.
Import ListNotations.

Local Open Scope string_scope.
Local Open Scope list_scope.

(** The sequence literals of the examples, as lists of characters. *)
Definition str (s : string) : list ascii := list_ascii_of_string s.

(* ====================================================================== *)
(** ** The deterministic finite automaton, [class DFA]                     *)
(* ====================================================================== *)

Module DFA.

(** The three attributes of an instance.  [estado] holds one of the
    string literals ['q0'] ... ['q_accept'], but nothing in Python stops a
    caller from storing another string there, so it stays a [string]. *)
Record dfa : Type := mk { estado : string; cont_t : Z; cont_h : Z }.

(** Attribute assignment, [self.attr = v]. *)
Definition set_estado (v : string) (self : dfa) : dfa :=
  {| estado := v; cont_t := cont_t self; cont_h := cont_h self |}.
Definition set_cont_t (v : Z) (self : dfa) : dfa :=
  {| estado := estado self; cont_t := v; cont_h := cont_h self |}.
Definition set_cont_h (v : Z) (self : dfa) : dfa :=
  {| estado := estado self; cont_t := cont_t self; cont_h := v |}.

(** [def reset(self)], lines 45-48. *)
Definition reset (self : dfa) : dfa :=
  let self := set_estado "q0" self in
  let self := set_cont_t 0 self in
  set_cont_h 0 self.

(** [def __init__(self)], lines 42-43: a new object has no attribute until
    [reset] assigns all three; the record it starts from is a placeholder. *)
Definition __init__ : dfa :=
  reset {| estado := ""; cont_t := 0; cont_h := 0 |}.

(** [def step(self, simbolo)], lines 50-97, branch by branch.  A
    configuration whose [estado] is none of the six literals falls through
    the whole [if]/[elif] chain unchanged. *)
Definition step (self : dfa) (simbolo : ascii) : dfa :=
  if estado self =? "q0" then
    if (simbolo =? "t")%char then
      let self := set_cont_t 1 self in
      set_estado "q1" self
    else
      reset self
  else if estado self =? "q1" then
    if (simbolo =? "t")%char then
      let self := set_cont_t (cont_t self + 1) self in
      set_estado (if (cont_t self =? 2)%Z then "q2" else "q1") self
    else
      let self := reset self in
      if (simbolo =? "t")%char then
        let self := set_cont_t 1 self in
        set_estado "q1" self
      else self
  else if estado self =? "q2" then
    if (simbolo =? "t")%char then
      let self := set_cont_t (cont_t self + 1) self in
      if (cont_t self >=? 3)%Z then set_estado "q3" self else self
    else
      let self := reset self in
      if (simbolo =? "t")%char then
        let self := set_cont_t 1 self in
        set_estado "q1" self
      else self
  else if estado self =? "q3" then
    if (simbolo =? "h")%char then
      let self := set_cont_h 1 self in
      set_estado "q4" self
    else if (simbolo =? "t")%char then
      let self := set_cont_t (cont_t self + 1) self in
      set_estado "q3" self
    else
      reset self
  else if estado self =? "q4" then
    if (simbolo =? "h")%char then
      let self := set_cont_h (cont_h self + 1) self in
      if (cont_h self >=? 2)%Z then set_estado "q_accept" self else self
    else if (simbolo =? "t")%char then
      let self := set_cont_t 1 self in
      let self := set_cont_h 0 self in
      set_estado "q1" self
    else
      reset self
  else if estado self =? "q_accept" then
    set_estado "q_accept" self
  else self.

(** The [for] loop of [run], lines 101-105: the returned boolean together
    with the instance as the call leaves it. *)
Fixpoint run_loop (self : dfa) (secuencia : list ascii) : bool * dfa :=
  match secuencia with
  | [] => (false, self)
  | s :: resto =>
      let self := step self s in
      if estado self =? "q_accept" then (true, self)
      else run_loop self resto
  end.

(** [def run(self, secuencia)], lines 99-105. *)
Definition run (self : dfa) (secuencia : list ascii) : bool * dfa :=
  let self := reset self in
  run_loop self secuencia.

(** Feeding a whole sequence through [step] with no early exit: the
    configurations "reachable by a sequence of step calls". *)
Definition steps (self : dfa) (w : list ascii) : dfa :=
  fold_left step w self.

(** *** [step] with a record of what it executes

    [step_trace] is [step] again, written over a configuration paired with
    a log: every assignment appends its source line, every [if]/[elif]
    appends its source line and the outcome of its test. *)
Inductive event : Type :=
| Assign (line : nat)
| Test (line : nat) (outcome : bool).

Definition traced : Type := (dfa * list event)%type.

(** An assignment statement at [line]. *)
Definition exec (line : nat) (f : dfa -> dfa) (p : traced) : traced :=
  (f (fst p), snd p ++ [Assign line]).

(** An [if]/[elif] at [line]: [yes] is its body, [no] what follows when the
    test fails. *)
Definition branch (line : nat) (cond : dfa -> bool)
           (yes no : traced -> traced) (p : traced) : traced :=
  let b := cond (fst p) in
  let p := (fst p, snd p ++ [Test line b]) in
  if b then yes p else no p.

(** One statement after another. *)
Definition seq (f g : traced -> traced) (p : traced) : traced := g (f p).

Definition pass (p : traced) : traced := p.

Definition reset_trace : traced -> traced :=
  seq (exec 46 (set_estado "q0"))
      (seq (exec 47 (set_cont_t 0)) (exec 48 (set_cont_h 0))).

Definition step_trace (self : dfa) (simbolo : ascii) : traced :=
  let en (q : string) (c : dfa) := estado c =? q in
  let es (a : ascii) (_ : dfa) := (simbolo =? a)%char in
  branch 51 (en "q0")
    (branch 52 (es "t"%char)
       (seq (exec 53 (set_cont_t 1)) (exec 54 (set_estado "q1")))
       reset_trace)
  (branch 57 (en "q1")
    (branch 58 (es "t"%char)
       (seq (exec 59 (fun c => set_cont_t (cont_t c + 1) c))
            (exec 60 (fun c =>
               set_estado (if (cont_t c =? 2)%Z then "q2" else "q1") c)))
       (seq reset_trace
            (branch 63 (es "t"%char)
               (seq (exec 64 (set_cont_t 1)) (exec 65 (set_estado "q1")))
               pass)))
  (branch 66 (en "q2")
    (branch 67 (es "t"%char)
       (seq (exec 68 (fun c => set_cont_t (cont_t c + 1) c))
            (branch 69 (fun c => (cont_t c >=? 3)%Z)
               (exec 70 (set_estado "q3"))
               pass))
       (seq reset_trace
            (branch 73 (es "t"%char)
               (seq (exec 74 (set_cont_t 1)) (exec 75 (set_estado "q1")))
               pass)))
  (branch 76 (en "q3")
    (branch 77 (es "h"%char)
       (seq (exec 78 (set_cont_h 1)) (exec 79 (set_estado "q4")))
       (branch 80 (es "t"%char)
          (seq (exec 81 (fun c => set_cont_t (cont_t c + 1) c))
               (exec 82 (set_estado "q3")))
          reset_trace))
  (branch 85 (en "q4")
    (branch 86 (es "h"%char)
       (seq (exec 87 (fun c => set_cont_h (cont_h c + 1) c))
            (branch 88 (fun c => (cont_h c >=? 2)%Z)
               (exec 89 (set_estado "q_accept"))
               pass))
       (branch 90 (es "t"%char)
          (seq (exec 91 (set_cont_t 1))
               (seq (exec 92 (set_cont_h 0)) (exec 93 (set_estado "q1"))))
          reset_trace))
  (branch 96 (en "q_accept")
    (exec 97 (set_estado "q_accept"))
    pass)))))
  (self, []).

(** [step] with the two inner [if simbolo == 't'] statements (lines 63-65
    and 73-75) deleted. *)
Definition step_pruned (self : dfa) (simbolo : ascii) : dfa :=
  if estado self =? "q0" then
    if (simbolo =? "t")%char then
      let self := set_cont_t 1 self in
      set_estado "q1" self
    else
      reset self
  else if estado self =? "q1" then
    if (simbolo =? "t")%char then
      let self := set_cont_t (cont_t self + 1) self in
      set_estado (if (cont_t self =? 2)%Z then "q2" else "q1") self
    else
      reset self
  else if estado self =? "q2" then
    if (simbolo =? "t")%char then
      let self := set_cont_t (cont_t self + 1) self in
      if (cont_t self >=? 3)%Z then set_estado "q3" self else self
    else
      reset self
  else if estado self =? "q3" then
    if (simbolo =? "h")%char then
      let self := set_cont_h 1 self in
      set_estado "q4" self
    else if (simbolo =? "t")%char then
      let self := set_cont_t (cont_t self + 1) self in
      set_estado "q3" self
    else
      reset self
  else if estado self =? "q4" then
    if (simbolo =? "h")%char then
      let self := set_cont_h (cont_h self + 1) self in
      if (cont_h self >=? 2)%Z then set_estado "q_accept" self else self
    else if (simbolo =? "t")%char then
      let self := set_cont_t 1 self in
      let self := set_cont_h 0 self in
      set_estado "q1" self
    else
      reset self
  else if estado self =? "q_accept" then
    set_estado "q_accept" self
  else self.

End DFA.

(* ====================================================================== *)
(** ** The pushdown automaton, [class PDA]                                 *)
(* ====================================================================== *)

Module PDA.

(** How a call can end: with a value, with the [IndexError] that
    [secuencia[i]] and [pila.pop()] raise out of range, or with a [while]
    loop still running when the iteration budget is spent. *)
Inductive outcome (A : Type) : Type :=
| Returns (a : A)
| IndexError
| OutOfFuel.
Arguments Returns {A} a.
Arguments IndexError {A}.
Arguments OutOfFuel {A}.

(** The local variables of [acepta] that the loops change. *)
Record locals : Type := mkLocals { pila : list ascii; visto_t : bool; i : nat }.

(** What the second loop hands back: the [return False] inside its body,
    or the locals when the loop condition fails. *)
Inductive flow : Type :=
| Return (b : bool)
| Fallthrough (l : locals).

(** [secuencia[i]] for an index that is never negative. *)
Definition index (secuencia : list ascii) (k : nat) : outcome ascii :=
  match nth_error secuencia k with
  | Some c => Returns c
  | None => IndexError
  end.

(** [pila.pop()]: removes the last element, raises on an empty list. *)
Definition pop (p : list ascii) : outcome (list ascii) :=
  match p with
  | [] => IndexError
  | _ :: _ => Returns (removelast p)
  end.

(** [not pila]. *)
Definition vacia (p : list ascii) : bool :=
  match p with [] => true | _ :: _ => false end.

(** [while i < n and secuencia[i] == 't'], lines 118-121. *)
Fixpoint loop_t (fuel : nat) (secuencia : list ascii) (n : nat) (l : locals)
  : outcome locals :=
  match fuel with
  | O => OutOfFuel
  | S fuel =>
      if (i l <? n)%nat then
        match index secuencia (i l) with
        | Returns c =>
            if (c =? "t")%char then
              loop_t fuel secuencia n
                {| pila := pila l ++ ["T"%char]; visto_t := true; i := i l + 1 |}
            else Returns l
        | IndexError => IndexError
        | OutOfFuel => OutOfFuel
        end
      else Returns l
  end.

(** [while i < n and secuencia[i] == 'h'], lines 122-126. *)
Fixpoint loop_h (fuel : nat) (secuencia : list ascii) (n : nat) (l : locals)
  : outcome flow :=
  match fuel with
  | O => OutOfFuel
  | S fuel =>
      if (i l <? n)%nat then
        match index secuencia (i l) with
        | Returns c =>
            if (c =? "h")%char then
              if vacia (pila l) then Returns (Return false)
              else
                match pop (pila l) with
                | Returns p =>
                    loop_h fuel secuencia n
                      {| pila := p; visto_t := visto_t l; i := i l + 1 |}
                | IndexError => IndexError
                | OutOfFuel => OutOfFuel
                end
            else Returns (Fallthrough l)
        | IndexError => IndexError
        | OutOfFuel => OutOfFuel
        end
      else Returns (Fallthrough l)
  end.

(** [def acepta(self, secuencia)], lines 113-127, each loop allowed [fuel]
    evaluations of its condition. *)
Definition acepta_fuel (fuel : nat) (secuencia : list ascii) : outcome bool :=
  let l := {| pila := []; visto_t := false; i := 0 |} in
  let n := length secuencia in
  match loop_t fuel secuencia n l with
  | Returns l =>
      match loop_h fuel secuencia n l with
      | Returns (Return b) => Returns b
      | Returns (Fallthrough l) =>
          Returns (visto_t l && vacia (pila l) && (i l =? n)%nat)
      | IndexError => IndexError
      | OutOfFuel => OutOfFuel
      end
  | IndexError => IndexError
  | OutOfFuel => OutOfFuel
  end.

(** [acepta] with a budget of one condition test more than the sequence
    has characters; [acepta_fuel_enough] shows that no larger budget
    changes the result. *)
Definition acepta (secuencia : list ascii) : outcome bool :=
  acepta_fuel (S (length secuencia)) secuencia.

End PDA.

(* ====================================================================== *)
(** ** [detectar_patrones] and the two compiled patterns                   *)
(* ====================================================================== *)

Module Regex.

(** Modelled from the spec: Python's [re] module is not part of the
    repository.  Both patterns are a concatenation of greedy bounded
    repetitions [c{m,}] of one literal character, and [finditer] "identifies
    all non-overlapping occurrences ... as literal substrings,
    left-to-right, non-overlapping, greedy" (spec section 6).  The model is
    a backtracking matcher for exactly that class of patterns. *)
Record atom : Type := mkAtom { sym : ascii; least : nat }.
Definition pattern : Type := list atom.

(** Length of the run of [c] at the front of [s]. *)
Fixpoint run_length (c : ascii) (s : list ascii) : nat :=
  match s with
  | x :: r => if (x =? c)%char then S (run_length c r) else 0
  | [] => 0
  end.

(** A greedy [c{m,}]: try the continuation [k] after [j] characters, then
    after [j-1], ... down to [m]. *)
Fixpoint backtrack (k : list ascii -> option nat) (s : list ascii)
         (m j : nat) : option nat :=
  if (j <? m)%nat then None
  else
    match k (skipn j s) with
    | Some len => Some (j + len)
    | None =>
        match j with
        | O => None
        | S j' => backtrack k s m j'
        end
    end.

(** The length of the match of [p] anchored at the front of [s], if any. *)
Fixpoint match_here (p : pattern) (s : list ascii) : option nat :=
  match p with
  | [] => Some 0
  | a :: p' => backtrack (match_here p') s (least a) (run_length (sym a) s)
  end.

(** The scan of [finditer]: [skip] counts the characters still covered by
    the previous match. *)
Fixpoint scan (p : pattern) (skip : nat) (s : list ascii)
  : list (list ascii) :=
  match s with
  | [] =>
      match skip, match_here p [] with
      | O, Some _ => [[]]
      | _, _ => []
      end
  | _ :: resto =>
      match skip with
      | S k => scan p k resto
      | O =>
          match match_here p s with
          | Some len => firstn len s :: scan p (len - 1) resto
          | None => scan p 0 resto
          end
      end
  end.

(** [[m.group() for m in p.finditer(secuencia)]]. *)
Definition finditer (p : pattern) (secuencia : list ascii)
  : list (list ascii) :=
  scan p 0 secuencia.

End Regex.

(** [re.compile(r't{3,}h{2,}')], line 22. *)
Definition sequía_regex : Regex.pattern :=
  [Regex.mkAtom "t" 3; Regex.mkAtom "h" 2].

(** [re.compile(r'r{2,}x{3,}')], line 23. *)
Definition inundación_regex : Regex.pattern :=
  [Regex.mkAtom "r" 2; Regex.mkAtom "x" 3].

(** The dictionary that [detectar_patrones] returns has exactly the two keys
    ['sequía'] and ['inundación']. *)
Record patrones : Type :=
  mkPatrones { sequía : list (list ascii); inundación : list (list ascii) }.

(** [def detectar_patrones(secuencia)], lines 25-35. *)
Definition detectar_patrones (secuencia : list ascii) : patrones :=
  let sequía := Regex.finditer sequía_regex secuencia in
  let inundación := Regex.finditer inundación_regex secuencia in
  {| sequía := sequía; inundación := inundación |}.

(* ====================================================================== *)
(** ** The example run, [if __name__ == '__main__']                        *)
(* ====================================================================== *)

Module Main.

(** [ejemplos], line 132, and the list of the third loop, line 145. *)
Definition ejemplos : list (list ascii) :=
  map str ["xxttthhxx"; "ttthh"; "ttth"; "tttthhhr"; "rrxxrxx"; "rrxxx";
           "rrxxxx"; "tttthhhh"].

Definition ejemplos_pda : list (list ascii) :=
  map str ["th"; "tthh"; "ttthhh"; "tth"; "thh"; "xth"].

(** ['Sí' if b else 'No'], lines 141 and 146. *)
Definition si_no (b : bool) : string := if b then "Sí" else "No".

(** The three loops of the block, each over an arbitrary list of examples.
    A printed line is recorded by the values that its f-string
    interpolates; the fixed text around them and the three headings are
    left out. *)

(** Lines 134-136. *)
Definition bucle_regex (ejemplos : list (list ascii))
  : list (list ascii * list (list ascii) * list (list ascii)) :=
  map (fun s =>
         let res := detectar_patrones s in
         (s, sequía res, inundación res)) ejemplos.

(** Lines 139-141: one instance, created before the loop, serves every
    example.  The lines printed and the instance as the loop leaves it. *)
Fixpoint bucle_dfa_desde (dfa : DFA.dfa) (ejemplos : list (list ascii))
  : list (list ascii * string) * DFA.dfa :=
  match ejemplos with
  | [] => ([], dfa)
  | s :: resto =>
      let (b, dfa) := DFA.run dfa s in
      let (lineas, dfa) := bucle_dfa_desde dfa resto in
      ((s, si_no b) :: lineas, dfa)
  end.

Definition bucle_dfa (ejemplos : list (list ascii))
  : list (list ascii * string) * DFA.dfa :=
  let dfa := DFA.__init__ in
  bucle_dfa_desde dfa ejemplos.

(** Lines 144-146: an [IndexError] in [acepta] would end the loop. *)
Fixpoint bucle_pda (ejemplos : list (list ascii))
  : PDA.outcome (list (list ascii * string)) :=
  match ejemplos with
  | [] => PDA.Returns []
  | s :: resto =>
      match PDA.acepta s with
      | PDA.Returns b =>
          match bucle_pda resto with
          | PDA.Returns lineas => PDA.Returns ((s, si_no b) :: lineas)
          | PDA.IndexError => PDA.IndexError
          | PDA.OutOfFuel => PDA.OutOfFuel
          end
      | PDA.IndexError => PDA.IndexError
      | PDA.OutOfFuel => PDA.OutOfFuel
      end
  end.

End Main.

(* ====================================================================== *)
(** ** Specification vocabulary                                            *)
(* ====================================================================== *)

(** [s] contains a run of at least three ['t'] immediately followed by at
    least two ['h']. *)
Definition drought (s : list ascii) : Prop :=
  exists p q n m, 3 <= n /\ 2 <= m /\
    s = p ++ repeat "t"%char n ++ repeat "h"%char m ++ q.

(** [s] contains the five characters [ttthh] in a row. *)
Definition has_ttthh (s : list ascii) : Prop :=
  exists p q, s = p ++ str "ttthh" ++ q.

(** [w] ends with the characters [u]. *)
Definition ends_with (w u : list ascii) : Prop :=
  exists v, w = v ++ u.

(** The word [t^n h^m]. *)
Definition tnhm (n m : nat) : list ascii :=
  repeat "t"%char n ++ repeat "h"%char m.

(** The word a pattern of [Regex] denotes: each atom contributes a run of
    its character, at least as long as its bound. *)
Fixpoint lang (p : Regex.pattern) (w : list ascii) : Prop :=
  match p with
  | [] => w = []
  | a :: p' =>
      exists j w', Regex.least a <= j /\
        w = repeat (Regex.sym a) j ++ w' /\ lang p' w'
  end.

(** What is known of a configuration that [step] has brought about after
    the characters [w], starting from a reset instance: the counters of each
    state, and the end of [w] that the state stands for. *)
Definition Inv (c : DFA.dfa) (w : list ascii) : Prop :=
  (DFA.estado c = "q0" /\ DFA.cont_t c = 0%Z /\ DFA.cont_h c = 0%Z) \/
  (DFA.estado c = "q1" /\ DFA.cont_t c = 1%Z /\ DFA.cont_h c = 0%Z /\
   ends_with w (str "t")) \/
  (DFA.estado c = "q2" /\ DFA.cont_t c = 2%Z /\ DFA.cont_h c = 0%Z /\
   ends_with w (str "tt")) \/
  (DFA.estado c = "q3" /\ (DFA.cont_t c >= 3)%Z /\ DFA.cont_h c = 0%Z /\
   ends_with w (str "ttt")) \/
  (DFA.estado c = "q4" /\ (DFA.cont_t c >= 3)%Z /\ DFA.cont_h c = 1%Z /\
   ends_with w (str "ttth")) \/
  (DFA.estado c = "q_accept" /\ has_ttthh w).

(** [s] contains a run of at least two ['r'] immediately followed by at
    least three ['x']. *)
Definition flood (s : list ascii) : Prop :=
  exists p q n m, 2 <= n /\ 3 <= m /\
    s = p ++ repeat "r"%char n ++ repeat "x"%char m ++ q.

(** A run of [n] characters [a] followed by a run of [m] characters [b]. *)
Definition runs (a : ascii) (n : nat) (b : ascii) (m : nat) : list ascii :=
  repeat a n ++ repeat b m.

(** The matches [ms] laid out in the text, leftmost first and without
    overlap: each match [m] begins where the pattern matches (with exactly
    the characters of [m]), at no position of the gap before it does the
    pattern match, the next match is looked for behind it, and behind the
    last one the pattern matches nowhere. *)
Inductive laid_out (p : Regex.pattern)
  : list (list ascii) -> list ascii -> Prop :=
| laid_end (s : list ascii) :
    (forall g1 g2, s = g1 ++ g2 -> Regex.match_here p g2 = None) ->
    laid_out p [] s
| laid_match (gap m rest : list ascii) (ms : list (list ascii)) :
    (forall g1 g2, gap = g1 ++ g2 -> g2 <> [] ->
                   Regex.match_here p (g2 ++ m ++ rest) = None) ->
    Regex.match_here p (m ++ rest) = Some (length m) ->
    laid_out p ms rest ->
    laid_out p (m :: ms) (gap ++ m ++ rest).

(** How many characters [c] in a row the word [w] ends with. *)
Definition trailing_run (c : ascii) (w : list ascii) : nat :=
  Regex.run_length c (rev w).

(** The transition table that [step] realises once the counters are known
    to fit the state: the next [estado] from the current one and the
    symbol. *)
Definition delta (q : string) (s : ascii) : string :=
  if q =? "q0" then
    if (s =? "t")%char then "q1" else "q0"
  else if q =? "q1" then
    if (s =? "t")%char then "q2" else "q0"
  else if q =? "q2" then
    if (s =? "t")%char then "q3" else "q0"
  else if q =? "q3" then
    if (s =? "h")%char then "q4"
    else if (s =? "t")%char then "q3" else "q0"
  else if q =? "q4" then
    if (s =? "h")%char then "q_accept"
    else if (s =? "t")%char then "q1" else "q0"
  else q.

(** [Inv] made exact: besides the counters of each state, how the counters
    and the state relate to the run of ['t'] that the consumed word [w] ends
    with. *)
Definition Track (c : DFA.dfa) (w : list ascii) : Prop :=
  (DFA.estado c = "q0" /\ DFA.cont_t c = 0%Z /\ DFA.cont_h c = 0%Z /\
   trailing_run "t" w = 0 /\ ~ ends_with w (str "ttth")) \/
  (DFA.estado c = "q1" /\ DFA.cont_t c = 1%Z /\ DFA.cont_h c = 0%Z /\
   trailing_run "t" w = 1) \/
  (DFA.estado c = "q2" /\ DFA.cont_t c = 2%Z /\ DFA.cont_h c = 0%Z /\
   trailing_run "t" w = 2) \/
  (DFA.estado c = "q3" /\ (DFA.cont_t c >= 3)%Z /\ DFA.cont_h c = 0%Z /\
   Z.of_nat (trailing_run "t" w) = DFA.cont_t c) \/
  (DFA.estado c = "q4" /\ (DFA.cont_t c >= 3)%Z /\ DFA.cont_h c = 1%Z /\
   exists u, w = u ++ str "h" /\
             Z.of_nat (trailing_run "t" u) = DFA.cont_t c) \/
  (DFA.estado c = "q_accept" /\ (DFA.cont_t c >= 3)%Z /\
   DFA.cont_h c = 2%Z).

(* ====================================================================== *)
(** ** Words                                                               *)
(* ====================================================================== *)

Section Words.

Lemma drought_iff_ttthh (s : list ascii) : drought s <-> has_ttthh s.
Proof.
  split.
  - intros (p & q & n & m & Hn & Hm & ->).
    replace n with ((n - 3) + 3) by lia.
    replace m with (2 + (m - 2)) by lia.
    rewrite !repeat_app. cbn [repeat].
    exists (p ++ repeat "t"%char (n - 3)), (repeat "h"%char (m - 2) ++ q).
    cbn. rewrite <- !app_assoc. reflexivity.
  - intros (p & q & ->).
    exists p, q, 3, 2. repeat split; lia.
Qed.

Lemma ends_last (w : list ascii) (s : ascii) : ends_with (w ++ [s]) [s].
Proof. now exists w. Qed.

Lemma ends_snoc (w u : list ascii) (s : ascii) :
  ends_with w u -> ends_with (w ++ [s]) (u ++ [s]).
Proof. intros [v ->]. exists v. now rewrite app_assoc. Qed.

Lemma ends_tail (w u : list ascii) (a : ascii) :
  ends_with w (a :: u) -> ends_with w u.
Proof. intros [v ->]. exists (v ++ [a]). now rewrite <- app_assoc. Qed.

Lemma ends_snoc1 (w : list ascii) (a s : ascii) :
  ends_with w [a] -> ends_with (w ++ [s]) [a; s].
Proof. apply (ends_snoc w [a] s). Qed.

Lemma ends_snoc2 (w : list ascii) (a b s : ascii) :
  ends_with w [a; b] -> ends_with (w ++ [s]) [a; b; s].
Proof. apply (ends_snoc w [a; b] s). Qed.

Lemma ends_snoc3 (w : list ascii) (a b c s : ascii) :
  ends_with w [a; b; c] -> ends_with (w ++ [s]) [a; b; c; s].
Proof. apply (ends_snoc w [a; b; c] s). Qed.

Lemma ends_shift3 (w : list ascii) (a b c s : ascii) :
  ends_with w [a; b; c] -> ends_with (w ++ [s]) [b; c; s].
Proof. intros H. apply (ends_tail _ _ a), (ends_snoc w [a; b; c] s), H. Qed.

Lemma ttthh_snoc (w : list ascii) (s : ascii) :
  has_ttthh w -> has_ttthh (w ++ [s]).
Proof.
  intros (p & q & ->). exists p, (q ++ [s]).
  now rewrite <- !app_assoc.
Qed.

Lemma ttthh_close (w : list ascii) :
  ends_with w ["t"; "t"; "t"; "h"]%char -> has_ttthh (w ++ ["h"%char]).
Proof.
  intros [v ->]. exists v, []. cbn. now rewrite <- app_assoc.
Qed.

Lemma ttthh_app (p w q : list ascii) :
  has_ttthh w -> has_ttthh (p ++ w ++ q).
Proof.
  intros (p' & q' & ->). exists (p ++ p'), (q' ++ q).
  now rewrite <- !app_assoc.
Qed.

End Words.

Create HintDb dfa.
#[local] Hint Resolve ends_last ends_snoc1 ends_snoc2 ends_snoc3 ends_shift3
  ttthh_snoc ttthh_close : dfa.

(* ====================================================================== *)
(** ** The automaton                                                       *)
(* ====================================================================== *)

Section Automaton.
Import DFA.

(** Decide both comparisons of [step] on a symbol. *)
Ltac on_symbol s :=
  destruct (Ascii.eqb_spec s "t"%char) as [->|?];
  [ | destruct (Ascii.eqb_spec s "h"%char) as [->|?] ];
  cbn.

Ltac inv_done := cbn; repeat split; eauto with dfa; try lia.

Ltac inv_pick :=
  first [ left; solve [inv_done]
        | right; left; solve [inv_done]
        | right; right; left; solve [inv_done]
        | right; right; right; left; solve [inv_done]
        | right; right; right; right; left; solve [inv_done]
        | right; right; right; right; right; solve [inv_done] ].

Lemma Inv_reset (c : dfa) : Inv (reset c) [].
Proof. left. cbn. auto. Qed.

Lemma Inv_step (c : dfa) (w : list ascii) (s : ascii) :
  Inv c w -> Inv (step c s) (w ++ [s]).
Proof.
  destruct c as [q ct ch]. unfold Inv. cbn [estado cont_t cont_h].
  intros [(-> & -> & ->)|[(-> & -> & -> & Hw)|[(-> & -> & -> & Hw)|
          [(-> & Ht & -> & Hw)|[(-> & Ht & -> & Hw)|(-> & Hw)]]]]];
    cbn in *; unfold step; cbn; on_symbol s.
  all: try inv_pick.
Qed.

Lemma steps_app (c : dfa) (u v : list ascii) :
  steps c (u ++ v) = steps (steps c u) v.
Proof. apply fold_left_app. Qed.

Lemma Inv_steps (c : dfa) (w : list ascii) : Inv (steps (reset c) w) w.
Proof.
  induction w as [|s w IH] using rev_ind.
  - apply Inv_reset.
  - rewrite steps_app. apply Inv_step, IH.
Qed.

Lemma accept_step (c : dfa) (s : ascii) :
  estado c = "q_accept" -> estado (step c s) = "q_accept".
Proof.
  destruct c as [q ct ch]. cbn. intros ->. reflexivity.
Qed.

Lemma accept_steps (c : dfa) (w : list ascii) :
  estado c = "q_accept" -> estado (steps c w) = "q_accept".
Proof.
  revert c. induction w as [|s w IH]; intros c H; cbn.
  - exact H.
  - apply IH, accept_step, H.
Qed.

(** From every configuration that the invariant describes, the five
    characters [ttthh] lead to the accepting state. *)
Lemma ttthh_accepts (c : dfa) (w : list ascii) :
  Inv c w -> estado (steps c (str "ttthh")) = "q_accept".
Proof.
  destruct c as [q ct ch]. unfold Inv. cbn [estado cont_t cont_h].
  intros [(-> & -> & ->)|[(-> & -> & -> & _)|[(-> & -> & -> & _)|
          [(-> & Ht & -> & _)|[(-> & Ht & -> & _)|(-> & _)]]]]];
    reflexivity.
Qed.

(** The loop of [run] and the plain iteration of [step] agree on whether
    the accepting state is met. *)
Lemma run_loop_steps (s : list ascii) (c : dfa) :
  estado c <> "q_accept" ->
  (fst (run_loop c s) = true <-> estado (steps c s) = "q_accept").
Proof.
  revert c. induction s as [|x s IH]; intros c Hc; cbn.
  - split; [discriminate | intros H; now elim Hc].
  - destruct (String.eqb_spec (estado (step c x)) "q_accept") as [E|E]; cbn.
    + split; [intros _ | reflexivity]. apply accept_steps, E.
    + apply IH, E.
Qed.

Lemma run_loop_final (s : list ascii) (c : dfa) :
  estado c <> "q_accept" ->
  (estado (snd (run_loop c s)) = "q_accept" <-> fst (run_loop c s) = true).
Proof.
  revert c. induction s as [|x s IH]; intros c Hc; cbn.
  - split; [intros H; now elim Hc | discriminate].
  - destruct (String.eqb_spec (estado (step c x)) "q_accept") as [E|E]; cbn.
    + split; [reflexivity | intros _; exact E].
    + apply IH, E.
Qed.

Lemma reset_not_accept (c : dfa) : estado (reset c) <> "q_accept".
Proof. cbn. discriminate. Qed.

Lemma run_steps (c : dfa) (s : list ascii) :
  fst (run c s) = true <-> estado (steps (reset c) s) = "q_accept".
Proof. unfold run. apply run_loop_steps, reset_not_accept. Qed.

(** [run] answers whether [ttthh] occurs in the sequence. *)
Lemma run_ttthh (c : dfa) (s : list ascii) :
  fst (run c s) = true <-> has_ttthh s.
Proof.
  rewrite run_steps. split.
  - intros H. pose proof (Inv_steps c s) as I. unfold Inv in I.
    rewrite H in I.
    destruct I as [(E & _)|[(E & _)|[(E & _)|[(E & _)|[(E & _)|(_ & I)]]]]];
      try discriminate E.
    exact I.
  - intros (p & q & ->).
    rewrite !steps_app. apply accept_steps.
    apply (ttthh_accepts _ p), Inv_steps.
Qed.

(** The log of one call: in ['q1'] an ['h'] takes the [else] branch, resets,
    and fails the inner test of line 63. *)
Example step_trace_q1_h :
  snd (step_trace (steps __init__ (str "t")) "h") =
  [Test 51 false; Test 57 true; Test 58 false;
   Assign 46; Assign 47; Assign 48; Test 63 false].
Proof. reflexivity. Qed.

(** Whatever the instance held before, [run] starts from the same
    configuration as a new instance. *)
Lemma reset_fresh (c : dfa) : reset c = __init__.
Proof. reflexivity. Qed.

End Automaton.

(* ====================================================================== *)
(** ** The pattern matcher                                                 *)
(* ====================================================================== *)

Section Matcher.
Import Regex.

Lemma run_length_repeat (c : ascii) (j : nat) (w : list ascii) :
  j <= run_length c (repeat c j ++ w).
Proof.
  induction j as [|j IH]; cbn; [lia|].
  rewrite Ascii.eqb_refl. lia.
Qed.

Lemma run_length_le (c : ascii) (s : list ascii) :
  run_length c s <= length s.
Proof.
  induction s as [|x s IH]; cbn; [lia|].
  destruct (x =? c)%char; lia.
Qed.

Lemma run_length_firstn (c : ascii) (s : list ascii) (j : nat) :
  j <= run_length c s -> firstn j s = repeat c j.
Proof.
  revert j. induction s as [|x s IH]; intros [|j] H; cbn in *;
    try reflexivity; try lia.
  destruct (Ascii.eqb_spec x c) as [->|]; [|lia].
  f_equal. apply IH. lia.
Qed.

Lemma firstn_plus (a b : nat) (l : list ascii) :
  firstn (a + b) l = firstn a l ++ firstn b (skipn a l).
Proof.
  revert l. induction a as [|a IH]; intros [|x l]; cbn;
    try reflexivity.
  - now rewrite firstn_nil.
  - now rewrite IH.
Qed.

Lemma skipn_repeat_app (c : ascii) (j : nat) (w : list ascii) :
  skipn j (repeat c j ++ w) = w.
Proof. induction j as [|j IH]; cbn; auto. Qed.

Lemma backtrack_sound k s m j len :
  backtrack k s m j = Some len ->
  exists j0 len', m <= j0 <= j /\ k (skipn j0 s) = Some len' /\
                  len = j0 + len'.
Proof.
  induction j as [|j IH]; cbn [backtrack].
  - destruct (Nat.ltb_spec 0 m); [discriminate|].
    destruct (k (skipn 0 s)) as [l|] eqn:E; [|discriminate].
    intros [= <-]. exists 0, l. repeat split; auto; lia.
  - destruct (Nat.ltb_spec (S j) m); [discriminate|].
    destruct (k (skipn (S j) s)) as [l|] eqn:E.
    + intros [= <-]. exists (S j), l. repeat split; auto; lia.
    + intros H'. destruct (IH H') as (j0 & l & Hj & Hk & ->).
      exists j0, l. repeat split; auto; lia.
Qed.

Lemma backtrack_complete k s m j j0 :
  m <= j0 <= j -> k (skipn j0 s) <> None -> backtrack k s m j <> None.
Proof.
  intros Hj Hk. induction j as [|j IH]; cbn [backtrack].
  - assert (j0 = 0) by lia. subst.
    destruct (Nat.ltb_spec 0 m); [lia|].
    destruct (k (skipn 0 s)); [discriminate | contradiction].
  - destruct (Nat.ltb_spec (S j) m); [lia|].
    destruct (k (skipn (S j) s)) eqn:E; [discriminate|].
    apply IH. destruct (Nat.eq_dec j0 (S j)) as [->|]; [|lia].
    now rewrite E in Hk.
Qed.

(** A match is a prefix of the text and a word of the pattern. *)
Lemma match_here_sound (p : pattern) (s : list ascii) (len : nat) :
  match_here p s = Some len -> len <= length s /\ lang p (firstn len s).
Proof.
  revert s len. induction p as [|a p IH]; intros s len; cbn.
  - intros [= <-]. split; [lia | reflexivity].
  - intros H.
    destruct (backtrack_sound _ _ _ _ _ H) as (j & l & Hj & Hk & ->).
    destruct (IH _ _ Hk) as [Hl Hw].
    pose proof (run_length_le (sym a) s).
    rewrite length_skipn in Hl. split; [lia|].
    exists j, (firstn l (skipn j s)). repeat split; try tauto.
    rewrite firstn_plus. f_equal. apply run_length_firstn. lia.
Qed.

(** A text that starts with a word of the pattern is matched. *)
Lemma match_here_complete (p : pattern) (w q : list ascii) :
  lang p w -> match_here p (w ++ q) <> None.
Proof.
  revert w. induction p as [|a p IH]; intros w; cbn.
  - discriminate.
  - intros (j & w' & Hj & -> & Hw). rewrite <- app_assoc.
    apply (backtrack_complete _ _ _ _ j).
    + split; [exact Hj | apply run_length_repeat].
    + rewrite skipn_repeat_app. apply IH, Hw.
Qed.

Lemma scan_found (p : pattern) (s : list ascii) (skip : nat) :
  scan p skip s <> [] ->
  exists pre u len, s = pre ++ u /\ match_here p u = Some len.
Proof.
  revert skip. induction s as [|x s IH]; intros skip; cbn [scan].
  - destruct skip; [|congruence].
    destruct (match_here p []) as [l|] eqn:E; [|congruence].
    intros _. now exists [], [], l.
  - destruct skip as [|k].
    + destruct (match_here p (x :: s)) as [l|] eqn:E.
      * intros _. now exists [], (x :: s), l.
      * intros H. destruct (IH _ H) as (pre & u & l & -> & Hu).
        now exists (x :: pre), u, l.
    + intros H. destruct (IH _ H) as (pre & u & l & -> & Hu).
      now exists (x :: pre), u, l.
Qed.

Lemma scan_finds (p : pattern) (pre u : list ascii) :
  match_here p u <> None -> scan p 0 (pre ++ u) <> [].
Proof.
  intros Hu. induction pre as [|x pre IH]; cbn [app].
  - destruct u as [|y u]; cbn [scan].
    + destruct (match_here p []); [discriminate | contradiction].
    + destruct (match_here p (y :: u)); [discriminate | contradiction].
  - cbn [scan]. destruct (match_here p (x :: pre ++ u)); [discriminate|].
    exact IH.
Qed.

(** Every string that [finditer] yields is a word of the pattern. *)
Lemma scan_sound (p : pattern) (s : list ascii) (skip : nat) (w : list ascii) :
  In w (scan p skip s) -> lang p w.
Proof.
  revert skip. induction s as [|x s IH]; intros skip; cbn [scan].
  - destruct skip; [|contradiction].
    destruct (match_here p []) as [l|] eqn:E; [|contradiction].
    intros [<-|[]]. destruct (match_here_sound _ _ _ E) as [_ H].
    now rewrite firstn_nil in H.
  - destruct skip as [|k]; [|apply IH].
    destruct (match_here p (x :: s)) as [l|] eqn:E; [|apply IH].
    intros [<-|H]; [|apply (IH _ H)].
    apply (proj2 (match_here_sound _ _ _ E)).
Qed.

(** [finditer] yields something exactly when a word of the pattern occurs
    in the text. *)
Lemma finditer_occurs (p : pattern) (s : list ascii) :
  finditer p s <> [] <-> exists pre w q, s = pre ++ w ++ q /\ lang p w.
Proof.
  unfold finditer. split.
  - intros H. destruct (scan_found _ _ _ H) as (pre & u & l & -> & Hu).
    destruct (match_here_sound _ _ _ Hu) as [_ Hw].
    exists pre, (firstn l u), (skipn l u).
    now rewrite firstn_skipn.
  - intros (pre & w & q & -> & Hw).
    apply scan_finds, match_here_complete, Hw.
Qed.

Lemma lang_sequia (w : list ascii) :
  lang sequía_regex w <-> exists n m, 3 <= n /\ 2 <= m /\ w = tnhm n m.
Proof.
  unfold tnhm. cbn. split.
  - intros (n & w1 & Hn & -> & m & w2 & Hm & -> & ->).
    exists n, m. now rewrite app_nil_r.
  - intros (n & m & Hn & Hm & ->).
    exists n, (repeat "h"%char m). repeat split; auto.
    exists m, []. now rewrite app_nil_r.
Qed.

(** The drought list of [detectar_patrones] is non-empty exactly on the
    sequences that contain a drought run. *)
Lemma sequia_drought (s : list ascii) :
  sequía (detectar_patrones s) <> [] <-> drought s.
Proof.
  cbn [detectar_patrones sequía]. rewrite finditer_occurs. split.
  - intros (pre & w & q & -> & Hw).
    apply lang_sequia in Hw. destruct Hw as (n & m & Hn & Hm & ->).
    exists pre, q, n, m. unfold tnhm. now rewrite <- app_assoc.
  - intros (pre & q & n & m & Hn & Hm & ->).
    exists pre, (tnhm n m), q. split.
    + unfold tnhm. now rewrite <- app_assoc.
    + apply lang_sequia. now exists n, m.
Qed.

End Matcher.

(* ====================================================================== *)
(** ** The stack automaton                                                 *)
(* ====================================================================== *)

Section Stack.
Import PDA.

Lemma repeat_snoc (c : ascii) (k : nat) : repeat c k ++ [c] = repeat c (S k).
Proof. symmetry. apply repeat_cons. Qed.

Lemma pop_repeat (c : ascii) (k : nat) :
  pop (repeat c (S k)) = Returns (repeat c k).
Proof.
  cbn [repeat pop]. f_equal.
  change (c :: repeat c k) with (repeat c (S k)).
  now rewrite <- repeat_snoc, removelast_last.
Qed.

Lemma vacia_repeat (c : ascii) (k : nat) : vacia (repeat c k) = (k =? 0)%nat.
Proof. now destruct k. Qed.

Lemma vacia_length (r : list ascii) : vacia r = (length r =? 0)%nat.
Proof. now destruct r. Qed.

Lemma index_middle (pre rest : list ascii) (x : ascii) :
  index (pre ++ x :: rest) (length pre) = Returns x.
Proof.
  unfold index. rewrite nth_error_app2 by lia.
  now rewrite Nat.sub_diag.
Qed.

Lemma snoc_assoc (pre rest : list ascii) (x : ascii) :
  pre ++ x :: rest = (pre ++ [x]) ++ rest.
Proof. now rewrite <- app_assoc. Qed.

(** The first loop pushes one marker for each leading ['t'] and stops at
    the first other character or at the end. *)
Lemma loop_t_spec (a : nat) :
  forall fuel k v pre rest s,
    s = pre ++ repeat "t"%char a ++ rest ->
    hd_error rest <> Some "t"%char ->
    a < fuel ->
    loop_t fuel s (length s) (mkLocals (repeat "T"%char k) v (length pre)) =
    Returns (mkLocals (repeat "T"%char (k + a)) (v || (0 <? a)%nat)
                      (length pre + a)).
Proof.
  induction a as [|a IH]; intros [|fuel] k v pre rest s Hs Hr Hf;
    try lia; cbn [loop_t i pila visto_t].
  - rewrite !Nat.add_0_r, orb_false_r.
    destruct (Nat.ltb_spec (length pre) (length s)); [|reflexivity].
    subst s. cbn [repeat app] in *.
    destruct rest as [|x rest]; [rewrite length_app in *; cbn in *; lia|].
    rewrite index_middle.
    destruct (Ascii.eqb_spec x "t"%char) as [->|]; [|reflexivity].
    now elim Hr.
  - assert (Hs' : s = (pre ++ ["t"%char]) ++ repeat "t"%char a ++ rest)
      by (subst s; cbn [repeat app]; apply snoc_assoc).
    destruct (Nat.ltb_spec (length pre) (length s)) as [_|Hn].
    2:{ subst s. rewrite !length_app in Hn. cbn in Hn. lia. }
    replace (index s (length pre)) with (Returns "t"%char)
      by (subst s; cbn [repeat app]; now rewrite index_middle).
    cbn. rewrite repeat_snoc.
    replace (length pre + 1) with (length (pre ++ ["t"%char]))
      by (rewrite length_app; reflexivity).
    rewrite (IH fuel (S k) true _ rest s Hs' Hr) by lia.
    rewrite length_app, orb_true_r.
    replace (k + S a) with (S k + a) by lia.
    replace (length pre + S a) with (length pre + length ["t"%char] + a)
      by (cbn; lia).
    reflexivity.
Qed.

(** The second loop pops one marker for each ['h'] while markers last. *)
Lemma loop_h_spec (b : nat) :
  forall fuel k v pre rest s,
    s = pre ++ repeat "h"%char b ++ rest ->
    hd_error rest <> Some "h"%char ->
    b < fuel -> b <= k ->
    loop_h fuel s (length s) (mkLocals (repeat "T"%char k) v (length pre)) =
    Returns (Fallthrough (mkLocals (repeat "T"%char (k - b)) v
                                   (length pre + b))).
Proof.
  induction b as [|b IH]; intros [|fuel] k v pre rest s Hs Hr Hf Hk;
    try lia; cbn [loop_h i pila visto_t].
  - rewrite Nat.add_0_r, Nat.sub_0_r.
    destruct (Nat.ltb_spec (length pre) (length s)); [|reflexivity].
    subst s. cbn [repeat app] in *.
    destruct rest as [|x rest]; [rewrite length_app in *; cbn in *; lia|].
    rewrite index_middle.
    destruct (Ascii.eqb_spec x "h"%char) as [->|]; [|reflexivity].
    now elim Hr.
  - assert (Hs' : s = (pre ++ ["h"%char]) ++ repeat "h"%char b ++ rest)
      by (subst s; cbn [repeat app]; apply snoc_assoc).
    destruct (Nat.ltb_spec (length pre) (length s)) as [_|Hn].
    2:{ subst s. rewrite !length_app in Hn. cbn in Hn. lia. }
    replace (index s (length pre)) with (Returns "h"%char)
      by (subst s; cbn [repeat app]; now rewrite index_middle).
    destruct k as [|k]; [lia|].
    rewrite pop_repeat. cbn.
    replace (length pre + 1) with (length (pre ++ ["h"%char]))
      by (rewrite length_app; reflexivity).
    rewrite (IH fuel k v _ rest s Hs' Hr) by lia.
    rewrite length_app.
    replace (length pre + S b) with (length pre + length ["h"%char] + b)
      by (cbn; lia).
    reflexivity.
Qed.

(** With more ['h'] than markers the second loop returns [False] at the
    first ['h'] that finds the stack empty. *)
Lemma loop_h_underflow (k : nat) :
  forall fuel b v pre rest s,
    s = pre ++ repeat "h"%char b ++ rest ->
    k < b -> k < fuel ->
    loop_h fuel s (length s) (mkLocals (repeat "T"%char k) v (length pre)) =
    Returns (Return false).
Proof.
  induction k as [|k IH]; intros [|fuel] [|b] v pre rest s Hs Hb Hf;
    try lia; cbn [loop_h i pila visto_t].
  - destruct (Nat.ltb_spec (length pre) (length s)) as [_|Hn].
    2:{ subst s. rewrite !length_app in Hn. cbn in Hn. lia. }
    replace (index s (length pre)) with (Returns "h"%char)
      by (subst s; cbn [repeat app]; now rewrite index_middle).
    reflexivity.
  - assert (Hs' : s = (pre ++ ["h"%char]) ++ repeat "h"%char b ++ rest)
      by (subst s; cbn [repeat app]; apply snoc_assoc).
    destruct (Nat.ltb_spec (length pre) (length s)) as [_|Hn].
    2:{ subst s. rewrite !length_app in Hn. cbn in Hn. lia. }
    replace (index s (length pre)) with (Returns "h"%char)
      by (subst s; cbn [repeat app]; now rewrite index_middle).
    rewrite pop_repeat. cbn.
    replace (length pre + 1) with (length (pre ++ ["h"%char]))
      by (rewrite length_app; reflexivity).
    apply (IH fuel b v _ rest s Hs'); lia.
Qed.

(** Every sequence splits into its leading ['t'], the ['h'] that follow
    them, and a rest that starts with neither of the characters the loops
    would still consume. *)
Lemma leading_run (c : ascii) (s : list ascii) :
  exists n r, s = repeat c n ++ r /\ hd_error r <> Some c.
Proof.
  induction s as [|x s (n & r & -> & Hr)].
  - exists 0, []. split; [reflexivity | discriminate].
  - destruct (Ascii.eqb_spec x c) as [->|Hx].
    + exists (S n), r. now split.
    + exists 0, (x :: repeat c n ++ r). split; [reflexivity|].
      cbn. congruence.
Qed.

Lemma shape (s : list ascii) :
  exists a b r, s = tnhm a b ++ r /\
    hd_error r <> Some "h"%char /\
    (b = 0 -> hd_error r <> Some "t"%char).
Proof.
  destruct (leading_run "t"%char s) as (a & r1 & -> & H1).
  destruct (leading_run "h"%char r1) as (b & r & -> & H2).
  exists a, b, r. unfold tnhm. rewrite <- app_assoc.
  repeat split; auto. intros ->. exact H1.
Qed.

(** [acepta] in closed form on a sequence split that way. *)
Lemma acepta_fuel_shape (fuel a b : nat) (r : list ascii) :
  hd_error r <> Some "h"%char ->
  (b = 0 -> hd_error r <> Some "t"%char) ->
  length (tnhm a b ++ r) < fuel ->
  acepta_fuel fuel (tnhm a b ++ r) =
  Returns ((0 <? a)%nat && (a =? b)%nat && vacia r).
Proof.
  intros Hh Ht Hf. unfold acepta_fuel.
  set (s := tnhm a b ++ r) in *.
  assert (Hlen : length s = a + b + length r)
    by (unfold s, tnhm; now rewrite !length_app, !repeat_length).
  assert (E1 : s = [] ++ repeat "t"%char a ++ (repeat "h"%char b ++ r))
    by (unfold s, tnhm; now rewrite <- app_assoc).
  assert (E2 : s = repeat "t"%char a ++ repeat "h"%char b ++ r)
    by exact E1.
  assert (H1 : hd_error (repeat "h"%char b ++ r) <> Some "t"%char)
    by (destruct b; [now apply Ht | discriminate]).
  change (mkLocals [] false 0)
    with (mkLocals (repeat "T"%char 0) false (length (@nil ascii))).
  rewrite (loop_t_spec a fuel 0 false [] _ s E1 H1) by lia.
  cbn [length Nat.add orb].
  replace a with (length (repeat "t"%char a)) at 3 by apply repeat_length.
  destruct (Nat.le_gt_cases b a) as [Hba|Hba].
  - rewrite (loop_h_spec b fuel a _ _ r s E2 Hh) by lia.
    cbn [visto_t pila i]. rewrite repeat_length, vacia_repeat, vacia_length.
    f_equal. rewrite Hlen.
    destruct (Nat.ltb_spec 0 a), (Nat.eqb_spec (a - b) 0),
      (Nat.eqb_spec a b), (Nat.eqb_spec (a + b) (a + b + length r)),
      (Nat.eqb_spec (length r) 0); cbn; try reflexivity; lia.
  - rewrite (loop_h_underflow a fuel b _ _ r s E2) by lia.
    f_equal. destruct (Nat.eqb_spec a b); [lia|].
    now rewrite andb_false_r.
Qed.

(** Any budget above the length of the sequence gives the result of
    [acepta]. *)
Lemma acepta_fuel_enough (fuel : nat) (s : list ascii) :
  length s < fuel -> acepta_fuel fuel s = acepta s.
Proof.
  intros Hf. unfold acepta.
  destruct (shape s) as (a & b & r & -> & Hh & Ht).
  rewrite !acepta_fuel_shape; auto.
Qed.

Lemma acepta_shape (a b : nat) (r : list ascii) :
  hd_error r <> Some "h"%char ->
  (b = 0 -> hd_error r <> Some "t"%char) ->
  acepta (tnhm a b ++ r) = Returns ((0 <? a)%nat && (a =? b)%nat && vacia r).
Proof. intros Hh Ht. apply acepta_fuel_shape; auto. Qed.

Lemma acepta_tnhm (n m : nat) :
  acepta (tnhm n m) = Returns ((0 <? n)%nat && (n =? m)%nat).
Proof.
  rewrite <- (app_nil_r (tnhm n m)), acepta_shape; try discriminate.
  now rewrite andb_true_r.
Qed.

End Stack.

(* ====================================================================== *)
(** ** The properties of the specification                                 *)
(* ====================================================================== *)

(** C1. For every sequence [s], and whatever the instance held before,
    [DFA.run] returns [True] exactly when [s] contains a run of at least
    three ['t'] immediately followed by at least two ['h']; and exactly when
    the pattern [t{3,}h{2,}] matches somewhere in [s], that is, when the
    drought list of [detectar_patrones] is not empty. *)
Theorem run_recognises_drought (c : DFA.dfa) (s : list ascii) :
  (fst (DFA.run c s) = true <-> drought s) /\
  (fst (DFA.run c s) = true <-> sequía (detectar_patrones s) <> []).
Proof.
  assert (H : fst (DFA.run c s) = true <-> drought s)
    by (rewrite drought_iff_ttthh; apply run_ttthh).
  split; [exact H|].
  rewrite sequia_drought. exact H.
Qed.

Lemma run_recognises_drought_witness :
  drought (str "xxttthhxx") /\ sequía (detectar_patrones (str "xxttthhxx")) <> [].
Proof.
  destruct (run_recognises_drought DFA.__init__ (str "xxttthhxx")) as [H1 H2].
  split; [apply H1 | apply H2]; reflexivity.
Defined.

(** C2. [PDA.acepta] always returns a boolean, and returns [True] exactly
    on the sequences [t^n h^n] with [n >= 1]; in particular it returns
    [True] on [t^n h^n] for every [n >= 1] and [False] on [t^n h^m]
    whenever [n <> m]. *)
Theorem acepta_recognises_tnhn :
  (forall s, exists b, PDA.acepta s = PDA.Returns b /\
     (b = true <-> exists n, 1 <= n /\ s = tnhm n n)) /\
  (forall n, 1 <= n -> PDA.acepta (tnhm n n) = PDA.Returns true) /\
  (forall n m, n <> m -> PDA.acepta (tnhm n m) = PDA.Returns false).
Proof.
  split; [|split].
  - intros s. destruct (shape s) as (a & b & r & -> & Hh & Ht).
    eexists. split; [apply acepta_shape; assumption|]. split.
    + intros H. apply andb_prop in H. destruct H as [H Hr].
      apply andb_prop in H. destruct H as [Ha Hab].
      apply Nat.ltb_lt in Ha. apply Nat.eqb_eq in Hab. subst b.
      destruct r; [|discriminate].
      exists a. split; [lia | apply app_nil_r].
    + intros (n & Hn & E).
      assert (A : PDA.acepta (tnhm a b ++ r) = PDA.Returns true).
      { rewrite E, acepta_tnhm, Nat.eqb_refl.
        destruct (Nat.ltb_spec 0 n); [reflexivity | lia]. }
      rewrite acepta_shape in A by assumption. now injection A.
  - intros n Hn. rewrite acepta_tnhm, Nat.eqb_refl.
    destruct (Nat.ltb_spec 0 n); [reflexivity | lia].
  - intros n m Hnm. rewrite acepta_tnhm.
    destruct (Nat.eqb_spec n m); [contradiction|].
    now rewrite andb_false_r.
Qed.

Lemma acepta_recognises_tnhn_witness :
  1 <= 3 /\ PDA.acepta (tnhm 3 3) = PDA.Returns true /\
  3 <> 1 /\ PDA.acepta (tnhm 3 1) = PDA.Returns false.
Proof.
  destruct acepta_recognises_tnhn as (_ & Heq & Hne).
  split; [lia|]. split; [apply Heq; lia|].
  split; [lia|]. apply Hne; lia.
Defined.

(** C3. [run] does not depend on what the instance did before: after
    [run(s1)] from any starting configuration, [run(s2)] gives the same
    result, and leaves the same configuration, as [run(s2)] on a newly
    constructed instance. *)
Theorem run_history_independent (c : DFA.dfa) (s1 s2 : list ascii) :
  DFA.run (snd (DFA.run c s1)) s2 = DFA.run DFA.__init__ s2.
Proof.
  unfold DFA.run. now rewrite !reset_fresh.
Qed.

(** C4. The accepting state is absorbing: [step] leaves ['q_accept']
    unchanged on every symbol, hence so does any sequence of steps, and a
    sequence that [run] accepts is still accepted with anything appended. *)
Theorem accept_absorbing :
  (forall c s, DFA.estado c = "q_accept" ->
               DFA.estado (DFA.step c s) = "q_accept") /\
  (forall c w, DFA.estado c = "q_accept" ->
               DFA.estado (DFA.steps c w) = "q_accept") /\
  (forall c s s', fst (DFA.run c s) = true ->
                  fst (DFA.run c (s ++ s')) = true).
Proof.
  split; [exact accept_step|]. split; [exact accept_steps|].
  intros c s s' H. apply run_steps. apply run_steps in H.
  rewrite steps_app. apply accept_steps, H.
Qed.

Lemma accept_absorbing_witness :
  fst (DFA.run DFA.__init__ (str "ttthh")) = true /\
  fst (DFA.run DFA.__init__ (str "ttthh" ++ str "xtx")) = true.
Proof.
  split; [reflexivity|].
  apply (proj2 (proj2 accept_absorbing)). reflexivity.
Defined.

(** C5. In every configuration reached from a reset instance by a sequence
    of [step] calls the counters fit the state: both are 0 in ['q0'];
    [cont_t] is 1 in ['q1'] and 2 in ['q2']; in ['q3'] [cont_t >= 3] and
    [cont_h = 0]; in ['q4'] [cont_t >= 3] and [cont_h = 1]. *)
Theorem counters_fit_state (c0 : DFA.dfa) (w : list ascii) :
  let c := DFA.steps (DFA.reset c0) w in
  (DFA.estado c = "q0" -> DFA.cont_t c = 0%Z /\ DFA.cont_h c = 0%Z) /\
  (DFA.estado c = "q1" -> DFA.cont_t c = 1%Z) /\
  (DFA.estado c = "q2" -> DFA.cont_t c = 2%Z) /\
  (DFA.estado c = "q3" -> (DFA.cont_t c >= 3)%Z /\ DFA.cont_h c = 0%Z) /\
  (DFA.estado c = "q4" -> (DFA.cont_t c >= 3)%Z /\ DFA.cont_h c = 1%Z).
Proof.
  intros c. pose proof (Inv_steps c0 w) as I. fold c in I.
  unfold Inv in I.
  split; [|split; [|split; [|split]]]; intros E; rewrite E in I;
    destruct I as [(E' & ? & ?)|[(E' & ? & ? & _)|[(E' & ? & ? & _)|
                  [(E' & ? & ? & _)|[(E' & ? & ? & _)|(E' & _)]]]]];
    try discriminate E'; auto.
Qed.

Lemma counters_fit_state_witness :
  let c := DFA.steps (DFA.reset DFA.__init__) (str "xtttth") in
  DFA.estado c = "q4" /\ (DFA.cont_t c >= 3)%Z /\ DFA.cont_h c = 1%Z.
Proof.
  split; [reflexivity|].
  apply (counters_fit_state DFA.__init__ (str "xtttth")). reflexivity.
Defined.

(** C6. The re-consumption statements of [step] are dead.  In every
    configuration and on every symbol, the inner [if simbolo == 't'] of the
    non-['t'] branches of ['q1'] and ['q2'] (lines 63 and 73) never finds its
    test true, the assignments it guards (lines 64-65 and 74-75) are never
    executed, and [step] with those two [if] statements removed computes the
    same configuration. *)
Theorem reconsumption_dead (c : DFA.dfa) (s : ascii) :
  let log := snd (DFA.step_trace c s) in
  fst (DFA.step_trace c s) = DFA.step c s /\
  (~ In (DFA.Test 63 true) log /\
   ~ In (DFA.Assign 64) log /\ ~ In (DFA.Assign 65) log) /\
  (~ In (DFA.Test 73 true) log /\
   ~ In (DFA.Assign 74) log /\ ~ In (DFA.Assign 75) log) /\
  DFA.step_pruned c s = DFA.step c s.
Proof.
  destruct c as [q ct ch].
  unfold DFA.step_trace, DFA.step, DFA.step_pruned, DFA.reset_trace,
    DFA.branch, DFA.seq, DFA.pass, DFA.exec.
  cbn [DFA.estado DFA.cont_t DFA.cont_h fst snd].
  destruct (q =? "q0"); [|destruct (q =? "q1"); [|destruct (q =? "q2");
    [|destruct (q =? "q3"); [|destruct (q =? "q4");
    [|destruct (q =? "q_accept")]]]]];
    destruct (s =? "t")%char; destruct (s =? "h")%char; cbn;
    try destruct (ct + 1 >=? 3)%Z; try destruct (ch + 1 >=? 2)%Z;
    cbn; repeat split; try reflexivity;
    intros H; repeat (destruct H as [H|H]; [discriminate H|]); exact H.
Qed.

(** C6, as worded, fails: the inner tests of lines 63 and 73 are themselves
    executed.  In ['q1'] (after ["t"]) and in ['q2'] (after ["tt"]), both
    reached from a reset instance, the symbol ['h'] takes the [else] branch,
    resets, and then evaluates the inner [if simbolo == 't'], which fails. *)
Lemma reconsumption_test_executed :
  In (DFA.Test 63 false)
     (snd (DFA.step_trace (DFA.steps (DFA.reset DFA.__init__) (str "t")) "h")) /\
  In (DFA.Test 73 false)
     (snd (DFA.step_trace (DFA.steps (DFA.reset DFA.__init__) (str "tt")) "h")).
Proof. split; cbn; tauto. Qed.

(** C7. The empty sequence is accepted as input by every operation:
    [DFA.run("")] returns [False], [PDA.acepta("")] returns [False], and
    [detectar_patrones("")] returns two empty lists. *)
Theorem empty_input (c : DFA.dfa) :
  DFA.run c (str "") = (false, DFA.__init__) /\
  PDA.acepta (str "") = PDA.Returns false /\
  detectar_patrones (str "") = {| sequía := []; inundación := [] |}.
Proof. repeat split. Qed.

(** C8. Both recognisers are total.  [DFA.run] yields a boolean on every
    sequence, and a symbol other than ['t'] and ['h'] sends each of the
    states ['q0'] ... ['q4'] back to the reset configuration.  [PDA.acepta]
    returns a boolean, with no [IndexError] and the loops ended, for every
    iteration budget above the length of the sequence, and rejects every
    sequence that holds a symbol other than ['t'] and ['h']. *)
Theorem recognisers_total :
  (forall c s, exists b c', DFA.run c s = (b, c')) /\
  (forall c x, x <> "t"%char -> x <> "h"%char ->
     In (DFA.estado c) ["q0"; "q1"; "q2"; "q3"; "q4"] ->
     DFA.step c x = DFA.reset c) /\
  (forall fuel s, length s < fuel ->
     exists b, PDA.acepta_fuel fuel s = PDA.Returns b /\
               PDA.acepta s = PDA.Returns b) /\
  (forall s x, In x s -> x <> "t"%char -> x <> "h"%char ->
     PDA.acepta s = PDA.Returns false).
Proof.
  repeat split.
  - intros c s. destruct (DFA.run c s) as [b c']. now exists b, c'.
  - intros [q ct ch] x Ht Hh Hq. cbn in Hq. unfold DFA.step.
    destruct (Ascii.eqb_spec x "t"%char); [contradiction|].
    destruct (Ascii.eqb_spec x "h"%char); [contradiction|].
    destruct Hq as [<-|[<-|[<-|[<-|[<-|[]]]]]]; reflexivity.
  - intros fuel s Hf. rewrite (acepta_fuel_enough fuel s Hf).
    destruct (shape s) as (a & b & r & -> & Hh & Ht).
    eexists. split; apply acepta_shape; assumption.
  - intros s x Hx Ht Hh.
    destruct (shape s) as (a & b & r & -> & Hh' & Ht').
    rewrite acepta_shape by assumption.
    destruct r as [|y r]; [|now rewrite andb_false_r].
    rewrite app_nil_r in Hx. unfold tnhm in Hx.
    apply in_app_or in Hx.
    destruct Hx as [Hx|Hx]; apply repeat_spec in Hx; congruence.
Qed.

Lemma recognisers_total_witness :
  (exists b, PDA.acepta_fuel 7 (str "ttxhh") = PDA.Returns b /\
             PDA.acepta (str "ttxhh") = PDA.Returns b) /\
  PDA.acepta (str "ttxhh") = PDA.Returns false /\
  DFA.step (DFA.steps DFA.__init__ (str "ttt")) "x" = DFA.__init__.
Proof.
  destruct recognisers_total as (_ & Hother & Hfuel & Hrej).
  split; [apply Hfuel; cbn; lia|].
  split.
  - apply (Hrej _ "x"%char); [cbn; tauto | discriminate | discriminate].
  - apply Hother; [discriminate | discriminate | cbn; tauto].
Defined.

(** C9. The concrete cases of the specification. *)
Theorem concrete_cases :
  fst (DFA.run DFA.__init__ (str "xxttthhxx")) = true /\
  fst (DFA.run DFA.__init__ (str "ttth")) = false /\
  fst (DFA.run DFA.__init__ (str "tttthhhh")) = true /\
  PDA.acepta (str "ttthhh") = PDA.Returns true /\
  PDA.acepta (str "tth") = PDA.Returns false /\
  PDA.acepta (str "xth") = PDA.Returns false /\
  PDA.acepta (str "") = PDA.Returns false.
Proof. repeat split. Qed.

(** C10. After [run(s)] returns, from any starting configuration, the
    attribute [estado] of the instance is ['q_accept'] exactly when the
    returned value is [True]. *)
Theorem run_leaves_accept_iff_true (c : DFA.dfa) (s : list ascii) :
  DFA.estado (snd (DFA.run c s)) = "q_accept" <-> fst (DFA.run c s) = true.
Proof.
  unfold DFA.run. apply run_loop_final, reset_not_accept.
Qed.

Lemma run_leaves_accept_iff_true_witness :
  DFA.estado (snd (DFA.run DFA.__init__ (str "xtttthhx"))) = "q_accept".
Proof.
  apply (run_leaves_accept_iff_true DFA.__init__ (str "xtttthhx")).
  reflexivity.
Defined.

(* ====================================================================== *)
(** ** Further properties: the matches of [detectar_patrones]              *)
(* ====================================================================== *)

Section Layout.
Import Regex.

Variable p : pattern.

(** The pattern never matches the empty string. *)
Hypothesis never_empty : forall u, match_here p u <> Some 0.

Lemma laid_prepend (x : ascii) (ms : list (list ascii)) (s : list ascii) :
  match_here p (x :: s) = None -> laid_out p ms s -> laid_out p ms (x :: s).
Proof.
  intros Hx H. destruct H as [s Hs | gap m rest ms Hgap Hm Hrest].
  - apply laid_end. intros [|y g1] g2 E; cbn in E.
    + now subst g2.
    + injection E as _ E. apply (Hs _ _ E).
  - change (x :: gap ++ m ++ rest) with ((x :: gap) ++ m ++ rest).
    apply laid_match; auto.
    intros [|y g1] g2 E Hg; cbn in E.
    + now subst g2.
    + injection E as _ E. apply (Hgap _ _ E Hg).
Qed.

Lemma scan_laid_out (s : list ascii) :
  forall skip, laid_out p (scan p skip s) (skipn skip s).
Proof.
  induction s as [|x s IH]; intros skip.
  - assert (E : match_here p [] = None).
    { destruct (match_here p []) as [l|] eqn:E; [|reflexivity].
      destruct (match_here_sound _ _ _ E) as [Hl _]. cbn in Hl.
      assert (l = 0) by lia. subst l. now elim (never_empty []). }
    rewrite skipn_nil. cbn [scan]. rewrite E.
    assert (L : laid_out p [] []).
    { apply laid_end. intros g1 g2 Hg. symmetry in Hg.
      apply app_eq_nil in Hg. destruct Hg as [_ ->]. exact E. }
    destruct skip; exact L.
  - destruct skip as [|k]; cbn [scan skipn]; [|apply IH].
    destruct (match_here p (x :: s)) as [l|] eqn:E.
    + destruct (match_here_sound _ _ _ E) as [Hl _].
      destruct l as [|l]; [now elim (never_empty (x :: s))|].
      pose proof (firstn_skipn (S l) (x :: s)) as Hs.
      rewrite <- Hs at 2.
      change (firstn (S l) (x :: s) ++ skipn (S l) (x :: s))
        with ([] ++ firstn (S l) (x :: s) ++ skipn (S l) (x :: s)).
      apply laid_match.
      * intros g1 g2 Hg Hne. symmetry in Hg.
        apply app_eq_nil in Hg. now destruct Hg.
      * rewrite Hs, length_firstn, Nat.min_l by exact Hl. exact E.
      * cbn [skipn]. replace (S l - 1) with l by lia. apply IH.
    + apply laid_prepend; [exact E | apply (IH 0)].
Qed.

Lemma finditer_laid_out (s : list ascii) : laid_out p (finditer p s) s.
Proof. apply (scan_laid_out s 0). Qed.

Lemma laid_out_length (ms : list (list ascii)) (s : list ascii) :
  laid_out p ms s -> length (concat ms) <= length s.
Proof.
  induction 1 as [s _ | gap m rest ms _ _ _ IH]; cbn; [lia|].
  rewrite !length_app. lia.
Qed.

Lemma laid_out_lang (ms : list (list ascii)) (s : list ascii) :
  laid_out p ms s -> Forall (lang p) ms.
Proof.
  induction 1 as [s _ | gap m rest ms _ Hm _ IH]; constructor; auto.
  destruct (match_here_sound _ _ _ Hm) as [_ H].
  now rewrite firstn_app, Nat.sub_diag, firstn_all, firstn_O, app_nil_r in H.
Qed.

End Layout.

Section TwoRuns.
Import Regex.

(** The shape of both compiled patterns: [a{na,}b{nb,}] with two different
    characters and positive bounds. *)
Variables (a b : ascii) (na nb : nat).
Hypothesis distinct : a <> b.
Hypothesis na_pos : 1 <= na.
Hypothesis nb_pos : 1 <= nb.

Let p : pattern := [mkAtom a na; mkAtom b nb].

Lemma lang_runs (w : list ascii) :
  lang p w <-> exists n m, na <= n /\ nb <= m /\ w = runs a n b m.
Proof.
  unfold runs. cbn. split.
  - intros (n & w1 & Hn & -> & m & w2 & Hm & -> & ->).
    exists n, m. now rewrite app_nil_r.
  - intros (n & m & Hn & Hm & ->).
    exists n, (repeat b m). repeat split; auto.
    exists m, []. now rewrite app_nil_r.
Qed.

Lemma runs_never_empty (u : list ascii) : match_here p u <> Some 0.
Proof.
  intros E. destruct (match_here_sound _ _ _ E) as [_ H].
  apply lang_runs in H. destruct H as (n & m & Hn & _ & H).
  destruct n; [lia | discriminate H].
Qed.

Lemma backtrack_hit k s m j l :
  m <= j -> k (skipn j s) = Some l -> backtrack k s m j = Some (j + l).
Proof.
  intros Hm Hk. destruct j as [|j]; cbn [backtrack].
  - destruct (Nat.ltb_spec 0 m); [lia|]. now rewrite Hk.
  - destruct (Nat.ltb_spec (S j) m); [lia|]. now rewrite Hk.
Qed.

Lemma backtrack_short k s m j : j < m -> backtrack k s m j = None.
Proof.
  intros Hm. destruct j as [|j]; cbn [backtrack].
  - destruct (Nat.ltb_spec 0 m); [reflexivity | lia].
  - destruct (Nat.ltb_spec (S j) m); [reflexivity | lia].
Qed.

(** The last repetition takes the whole run: nothing is given back. *)
Lemma match_last (v : list ascii) (l : nat) :
  match_here [mkAtom b nb] v = Some l -> l = run_length b v.
Proof.
  cbn [match_here least sym].
  destruct (Nat.le_gt_cases nb (run_length b v)) as [H|H].
  - rewrite (backtrack_hit _ _ _ _ 0 H eq_refl). intros [= <-]. lia.
  - now rewrite backtrack_short.
Qed.

Lemma run_length_stop (c : ascii) (v : list ascii) :
  hd_error (skipn (run_length c v) v) <> Some c.
Proof.
  induction v as [|x v IH]; cbn; [discriminate|].
  destruct (Ascii.eqb_spec x c) as [->|Hx]; cbn; [exact IH | congruence].
Qed.

(** A match cannot be continued by one more [b]. *)
Lemma match_right_maximal (u : list ascii) (len : nat) :
  match_here p u = Some len -> hd_error (skipn len u) <> Some b.
Proof.
  intros H. cbn [p match_here least sym] in H.
  destruct (backtrack_sound _ _ _ _ _ H) as (j & l & _ & Hl & ->).
  apply match_last in Hl. subst l.
  rewrite Nat.add_comm, <- skipn_skipn. apply run_length_stop.
Qed.

(** A match preceded by one more [a] would have started earlier. *)
Lemma match_left_extends (w rest : list ascii) :
  lang p w -> match_here p (a :: w ++ rest) <> None.
Proof.
  intros H. apply lang_runs in H. destruct H as (n & m & Hn & Hm & ->).
  apply (match_here_complete p (a :: runs a n b m) rest).
  apply lang_runs. exists (S n), m. repeat split; auto.
Qed.

(** Every match stands in the text as a whole block of the two runs: no
    [a] directly before it, no [b] directly behind it. *)
Lemma laid_out_blocks (ms : list (list ascii)) (s : list ascii) :
  laid_out p ms s ->
  forall w, In w ms ->
    exists pre post, s = pre ++ w ++ post /\
      ~ ends_with pre [a] /\ hd_error post <> Some b.
Proof.
  induction 1 as [s _ | gap m rest ms Hgap Hm Hrest IH]; intros w Hw.
  - destruct Hw.
  - assert (Lm : lang p m).
    { destruct (match_here_sound _ _ _ Hm) as [_ H].
      now rewrite firstn_app, Nat.sub_diag, firstn_all, firstn_O,
        app_nil_r in H. }
    destruct Hw as [<-|Hw].
    + exists gap, rest. split; [reflexivity|]. split.
      * intros [v ->].
        apply (match_left_extends m rest Lm).
        apply (Hgap v [a] eq_refl). discriminate.
      * pose proof (match_right_maximal _ _ Hm) as H.
        now rewrite skipn_app, Nat.sub_diag, skipn_all in H.
    + destruct (IH w Hw) as (pre & post & -> & Hpre & Hpost).
      exists (gap ++ m ++ pre), post. split; [now rewrite <- !app_assoc|].
      split; [|exact Hpost].
      intros [v E].
      destruct pre as [|y pre0] using rev_ind.
      * rewrite app_nil_r in E.
        apply lang_runs in Lm. destruct Lm as (n & k & _ & Hk & ->).
        destruct k as [|k]; [lia|].
        unfold runs in E. rewrite <- repeat_snoc, !app_assoc in E.
        apply app_inj_tail in E. destruct E as [_ E]. now elim distinct.
      * rewrite !app_assoc in E. apply app_inj_tail in E.
        destruct E as [_ ->]. apply Hpre. now exists pre0.
Qed.

End TwoRuns.

(* ====================================================================== *)
(** ** Further properties: the automaton and the consumed word             *)
(* ====================================================================== *)

Section Tracking.
Import DFA.

Lemma trailing_snoc_same (c : ascii) (w : list ascii) :
  trailing_run c (w ++ [c]) = S (trailing_run c w).
Proof.
  unfold trailing_run. rewrite rev_unit. cbn.
  now rewrite Ascii.eqb_refl.
Qed.

Lemma trailing_snoc_diff (c s : ascii) (w : list ascii) :
  s <> c -> trailing_run c (w ++ [s]) = 0.
Proof.
  intros H. unfold trailing_run. rewrite rev_unit. cbn.
  destruct (Ascii.eqb_spec s c); [contradiction | reflexivity].
Qed.

Lemma ends_ttt_trailing (w : list ascii) :
  ends_with w ["t"; "t"; "t"]%char -> 3 <= trailing_run "t" w.
Proof.
  intros [v ->]. unfold trailing_run. rewrite rev_app_distr. cbn. lia.
Qed.

Lemma ends_ttth_snoc (w : list ascii) (s : ascii) :
  ends_with (w ++ [s]) ["t"; "t"; "t"; "h"]%char ->
  s = "h"%char /\ 3 <= trailing_run "t" w.
Proof.
  intros [v E].
  change (v ++ ["t"; "t"; "t"; "h"]%char)
    with (v ++ ["t"; "t"; "t"]%char ++ ["h"%char]) in E.
  rewrite app_assoc in E. apply app_inj_tail in E. destruct E as [-> ->].
  split; [reflexivity|]. apply ends_ttt_trailing. now exists v.
Qed.

Lemma ends_ttth_trailing (w : list ascii) :
  ends_with w ["t"; "t"; "t"; "h"]%char -> trailing_run "t" w = 0.
Proof.
  intros [v ->]. unfold trailing_run. rewrite rev_app_distr. reflexivity.
Qed.

Lemma no_ttth_short (w : list ascii) (s : ascii) :
  trailing_run "t" w < 3 -> ~ ends_with (w ++ [s]) ["t"; "t"; "t"; "h"]%char.
Proof. intros H E. apply ends_ttth_snoc in E. lia. Qed.

Lemma no_ttth_other (w : list ascii) (s : ascii) :
  s <> "h"%char -> ~ ends_with (w ++ [s]) ["t"; "t"; "t"; "h"]%char.
Proof. intros H E. apply ends_ttth_snoc in E. tauto. Qed.

Ltac by_symbol s :=
  destruct (Ascii.eqb_spec s "t"%char) as [->|?];
  [ | destruct (Ascii.eqb_spec s "h"%char) as [->|?] ];
  cbn.

Ltac track_done :=
  cbn; repeat split;
  rewrite ?trailing_snoc_same;
  rewrite ?trailing_snoc_diff by (assumption || discriminate);
  try lia; try reflexivity;
  try (apply no_ttth_short; lia);
  try (apply no_ttth_other; (assumption || discriminate));
  try (eexists; split; [reflexivity | assumption]).

Ltac track_pick :=
  first [ left; solve [track_done]
        | right; left; solve [track_done]
        | right; right; left; solve [track_done]
        | right; right; right; left; solve [track_done]
        | right; right; right; right; left; solve [track_done]
        | right; right; right; right; right; solve [track_done] ].

Lemma Track_reset (c : dfa) : Track (reset c) [].
Proof.
  left. cbn. repeat split. intros [v E].
  symmetry in E. apply app_eq_nil in E. now destruct E.
Qed.

Lemma Track_step (c : dfa) (w : list ascii) (s : ascii) :
  Track c w -> Track (step c s) (w ++ [s]).
Proof.
  destruct c as [q ct ch]. unfold Track. cbn [estado cont_t cont_h].
  intros [(-> & -> & -> & Hw & Hn)|[(-> & -> & -> & Hw)|[(-> & -> & -> & Hw)|
          [(-> & Ht & -> & Hw)|[(-> & Ht & -> & u & -> & Hw)|
          (-> & Ht & ->)]]]]];
    cbn in *; unfold step; cbn; by_symbol s.
  all: try track_pick.
Qed.

End Tracking.

Section Streams.
Import DFA.

Lemma Track_steps (c : dfa) (w : list ascii) : Track (steps (reset c) w) w.
Proof.
  induction w as [|s w IH] using rev_ind.
  - apply Track_reset.
  - rewrite steps_app. apply Track_step, IH.
Qed.

Lemma accept_iff_ttthh (c : dfa) (w : list ascii) :
  estado (steps (reset c) w) = "q_accept" <-> has_ttthh w.
Proof. rewrite <- run_steps. apply run_ttthh. Qed.

(** With counters that fit the state, the next state is read off the
    table. *)
Lemma step_delta (c : dfa) (w : list ascii) (s : ascii) :
  Inv c w -> estado (step c s) = delta (estado c) s.
Proof.
  destruct c as [q ct ch]. unfold Inv. cbn [estado cont_t cont_h].
  intros [(-> & -> & ->)|[(-> & -> & -> & _)|[(-> & -> & -> & _)|
          [(-> & Ht & -> & _)|[(-> & Ht & -> & _)|(-> & _)]]]]];
    unfold step, delta; cbn;
    destruct (s =? "t")%char; destruct (s =? "h")%char; reflexivity.
Qed.

(** The only way into the accepting state: an ['h'] in ['q4']. *)
Lemma step_into_accept (c : dfa) (w : list ascii) (x : ascii) :
  Track c w -> estado c <> "q_accept" ->
  estado (step c x) = "q_accept" ->
  x = "h"%char /\ estado c = "q4" /\
  cont_t (step c x) = cont_t c /\ cont_h (step c x) = 2%Z.
Proof.
  destruct c as [q ct ch]. unfold Track. cbn [estado cont_t cont_h].
  intros [(-> & -> & -> & _)|[(-> & -> & -> & _)|[(-> & -> & -> & _)|
          [(-> & Ht & -> & _)|[(-> & Ht & -> & _)|(-> & _)]]]]] Hq;
    try (now elim Hq); unfold step; cbn;
    destruct (Ascii.eqb_spec x "t"%char) as [->|?];
    try destruct (Ascii.eqb_spec x "h"%char) as [->|?];
    cbn; intros E; try discriminate E; auto.
Qed.

Lemma run_loop_false (s : list ascii) (c : dfa) :
  fst (run_loop c s) = false -> snd (run_loop c s) = steps c s.
Proof.
  revert c. induction s as [|x s IH]; intros c; cbn; [reflexivity|].
  destruct (estado (step c x) =? "q_accept"); [discriminate | apply IH].
Qed.

(** When the loop of [run] returns [True] it has consumed a prefix [w]
    and one more symbol [x], and that symbol is the first to bring the
    accepting state. *)
Lemma run_loop_true (s : list ascii) (c : dfa) :
  estado c <> "q_accept" ->
  fst (run_loop c s) = true ->
  exists w x q, s = w ++ x :: q /\
    snd (run_loop c s) = step (steps c w) x /\
    estado (steps c w) <> "q_accept" /\
    estado (step (steps c w) x) = "q_accept".
Proof.
  revert c. induction s as [|x s IH]; intros c Hc; cbn; [discriminate|].
  destruct (String.eqb_spec (estado (step c x)) "q_accept") as [E|E]; cbn.
  - intros _. now exists [], x, s.
  - intros H. destruct (IH _ E H) as (w & y & q & -> & Hs & Hn & Ha).
    now exists (x :: w), y, q.
Qed.

Lemma run_loop_app_true (u v : list ascii) (c : dfa) :
  fst (run_loop c u) = true -> run_loop c (u ++ v) = run_loop c u.
Proof.
  revert c. induction u as [|x u IH]; intros c; cbn; [discriminate|].
  destruct (estado (step c x) =? "q_accept"); [reflexivity | apply IH].
Qed.

End Streams.

(* ====================================================================== *)
(** ** Further properties, stated                                          *)
(* ====================================================================== *)

Lemma sequia_never_empty (u : list ascii) :
  Regex.match_here sequía_regex u <> Some 0.
Proof. apply (runs_never_empty "t" "h" 3 2); lia. Qed.

Lemma inundacion_never_empty (u : list ascii) :
  Regex.match_here inundación_regex u <> Some 0.
Proof. apply (runs_never_empty "r" "x" 2 3); lia. Qed.

Lemma concat_at_least (k : nat) (ms : list (list ascii)) :
  Forall (fun w => k <= length w) ms -> k * length ms <= length (concat ms).
Proof.
  induction 1 as [|w ms Hw _ IH]; cbn; [lia|].
  rewrite length_app. lia.
Qed.

(** X1. The flood list of [detectar_patrones] is non-empty exactly on the
    sequences that contain a run of at least two ['r'] immediately followed
    by at least three ['x']. *)
Theorem flood_detected (s : list ascii) :
  inundación (detectar_patrones s) <> [] <-> flood s.
Proof.
  cbn [detectar_patrones inundación]. rewrite finditer_occurs. split.
  - intros (pre & w & q & -> & Hw).
    apply (lang_runs "r" "x" 2 3) in Hw.
    destruct Hw as (n & m & Hn & Hm & ->).
    exists pre, q, n, m. unfold runs. now rewrite <- app_assoc.
  - intros (pre & q & n & m & Hn & Hm & ->).
    exists pre, (runs "r" n "x" m), q. split.
    + unfold runs. now rewrite <- app_assoc.
    + apply (lang_runs "r" "x" 2 3). now exists n, m.
Qed.

Lemma flood_detected_witness :
  flood (str "xrrrxxxxt") /\ ~ flood (str "rrxxrxx").
Proof.
  split.
  - apply (proj1 (flood_detected (str "xrrrxxxxt"))). discriminate.
  - intros H. apply (proj2 (flood_detected (str "rrxxrxx"))) in H.
    now apply H.
Defined.

(** X2. Every string in the drought list is a run of at least three ['t']
    followed by a run of at least two ['h'] and nothing else, and every
    string in the flood list is a run of at least two ['r'] followed by a
    run of at least three ['x']. *)
Theorem matches_are_runs (s : list ascii) :
  Forall (fun w => exists n m, 3 <= n /\ 2 <= m /\ w = runs "t" n "h" m)
         (sequía (detectar_patrones s)) /\
  Forall (fun w => exists n m, 2 <= n /\ 3 <= m /\ w = runs "r" n "x" m)
         (inundación (detectar_patrones s)).
Proof.
  split; apply Forall_forall; intros w Hw;
    apply scan_sound in Hw; now apply lang_runs in Hw.
Qed.

(** X3. The matches of each list lie in the sequence from left to right
    without overlapping: each one starts at the first position behind the
    previous match where the pattern matches, and behind the last one the
    pattern matches nowhere. *)
Theorem matches_laid_out (s : list ascii) :
  laid_out sequía_regex (sequía (detectar_patrones s)) s /\
  laid_out inundación_regex (inundación (detectar_patrones s)) s.
Proof.
  split; apply finditer_laid_out.
  - exact sequia_never_empty.
  - exact inundacion_never_empty.
Qed.

(** X4. A match takes at least five characters and matches do not overlap,
    so neither list has more than [len(secuencia) / 5] entries; a sequence
    of fewer than five characters yields two empty lists. *)
Theorem matches_bounded (s : list ascii) :
  5 * length (sequía (detectar_patrones s)) <= length s /\
  5 * length (inundación (detectar_patrones s)) <= length s.
Proof.
  split.
  - pose proof (finditer_laid_out _ sequia_never_empty s) as L.
    apply Nat.le_trans with (2 := laid_out_length _ _ _ L).
    apply concat_at_least.
    apply Forall_impl with (2 := laid_out_lang _ _ _ L). intros w Hw.
    apply (lang_runs "t" "h" 3 2) in Hw.
    destruct Hw as (n & m & Hn & Hm & ->).
    unfold runs. rewrite length_app, !repeat_length. lia.
  - pose proof (finditer_laid_out _ inundacion_never_empty s) as L.
    apply Nat.le_trans with (2 := laid_out_length _ _ _ L).
    apply concat_at_least.
    apply Forall_impl with (2 := laid_out_lang _ _ _ L). intros w Hw.
    apply (lang_runs "r" "x" 2 3) in Hw.
    destruct Hw as (n & m & Hn & Hm & ->).
    unfold runs. rewrite length_app, !repeat_length. lia.
Qed.

(** X5. Matches are greedy on both sides.  Each drought match stands in the
    sequence with no ['t'] directly before it and no ['h'] directly behind
    it; each flood match with no ['r'] directly before it and no ['x']
    directly behind it. *)
Theorem matches_are_whole_blocks (s w : list ascii) :
  (In w (sequía (detectar_patrones s)) ->
   exists pre post, s = pre ++ w ++ post /\
     ~ ends_with pre (str "t") /\ hd_error post <> Some "h"%char) /\
  (In w (inundación (detectar_patrones s)) ->
   exists pre post, s = pre ++ w ++ post /\
     ~ ends_with pre (str "r") /\ hd_error post <> Some "x"%char).
Proof.
  split; intros Hw.
  - apply (laid_out_blocks "t" "h" 3 2) with (ms := sequía (detectar_patrones s));
      try lia; try discriminate; auto.
    apply finditer_laid_out, sequia_never_empty.
  - apply (laid_out_blocks "r" "x" 2 3)
      with (ms := inundación (detectar_patrones s));
      try lia; try discriminate; auto.
    apply finditer_laid_out, inundacion_never_empty.
Qed.

Lemma matches_are_whole_blocks_witness :
  exists pre post, str "xtttthhhr" = pre ++ str "tttthhh" ++ post /\
    ~ ends_with pre (str "t") /\ hd_error post <> Some "h"%char.
Proof.
  apply (proj1 (matches_are_whole_blocks (str "xtttthhhr") (str "tttthhh"))).
  cbn. left. reflexivity.
Defined.

Lemma Inv_q4 (c : DFA.dfa) (w : list ascii) :
  Inv c w -> DFA.estado c = "q4" -> ends_with w (str "ttth").
Proof.
  intros [(E & _)|[(E & _)|[(E & _)|[(E & _)|[(_ & _ & _ & H)|(E & _)]]]]] Q;
    try (rewrite Q in E; discriminate E).
  exact H.
Qed.

(** X6. [step] never leaves the six states: from any of them, with any
    counters and on any symbol, it arrives at one of them; and a
    configuration whose [estado] is none of the six is left untouched. *)
Theorem step_keeps_known_states (c : DFA.dfa) (s : ascii) :
  (In (DFA.estado c) ["q0"; "q1"; "q2"; "q3"; "q4"; "q_accept"] ->
   In (DFA.estado (DFA.step c s)) ["q0"; "q1"; "q2"; "q3"; "q4"; "q_accept"]) /\
  (~ In (DFA.estado c) ["q0"; "q1"; "q2"; "q3"; "q4"; "q_accept"] ->
   DFA.step c s = c).
Proof.
  destruct c as [q ct ch]. cbn [DFA.estado]. split.
  - intros [<-|[<-|[<-|[<-|[<-|[<-|[]]]]]]]; unfold DFA.step; cbn;
      destruct (s =? "t")%char; destruct (s =? "h")%char; cbn;
      try destruct (ct + 1 =? 2)%Z; try destruct (ct + 1 >=? 3)%Z;
      try destruct (ch + 1 >=? 2)%Z; cbn; tauto.
  - intros H. unfold DFA.step. cbn [DFA.estado].
    destruct (String.eqb_spec q "q0") as [->|_]; [elim H; cbn; tauto|].
    destruct (String.eqb_spec q "q1") as [->|_]; [elim H; cbn; tauto|].
    destruct (String.eqb_spec q "q2") as [->|_]; [elim H; cbn; tauto|].
    destruct (String.eqb_spec q "q3") as [->|_]; [elim H; cbn; tauto|].
    destruct (String.eqb_spec q "q4") as [->|_]; [elim H; cbn; tauto|].
    destruct (String.eqb_spec q "q_accept") as [->|_]; [elim H; cbn; tauto|].
    reflexivity.
Qed.

Lemma step_keeps_known_states_witness :
  In (DFA.estado (DFA.step (DFA.mk "q2" 7 (-4)) "t"))
     ["q0"; "q1"; "q2"; "q3"; "q4"; "q_accept"] /\
  DFA.step (DFA.mk "q9" 7 (-4)) "t" = DFA.mk "q9" 7 (-4).
Proof.
  split.
  - apply (proj1 (step_keeps_known_states (DFA.mk "q2" 7 (-4)) "t")).
    cbn. tauto.
  - apply (proj2 (step_keeps_known_states (DFA.mk "q9" 7 (-4)) "t")).
    cbn. intros [H|[H|[H|[H|[H|[H|[]]]]]]]; discriminate H.
Defined.

(** X7. While a run of ['t'] is being read, [cont_t] is its length: in the
    states ['q0'] ... ['q3'] reached from a reset instance, [cont_t] is the
    number of ['t'] the consumed word ends with; in ['q4'] the word ends
    with one ['h'] and [cont_t] is the number of ['t'] before it. *)
Theorem cont_t_counts_run (c0 : DFA.dfa) (w : list ascii) :
  let c := DFA.steps (DFA.reset c0) w in
  (In (DFA.estado c) ["q0"; "q1"; "q2"; "q3"] ->
   DFA.cont_t c = Z.of_nat (trailing_run "t" w)) /\
  (DFA.estado c = "q4" ->
   exists u, w = u ++ str "h" /\
             DFA.cont_t c = Z.of_nat (trailing_run "t" u)).
Proof.
  intros c. pose proof (Track_steps c0 w) as T. fold c in T.
  unfold Track in T. split; intros Q.
  - destruct T as [(E & ? & ? & T & _)|[(E & ? & ? & T)|[(E & ? & ? & T)|
                  [(E & ? & ? & T)|[(E & _)|(E & _)]]]]];
      rewrite E in Q; cbn in Q; try lia;
      try (destruct Q as [Q|[Q|[Q|[Q|[]]]]]; discriminate Q).
  - destruct T as [(E & _)|[(E & _)|[(E & _)|
                  [(E & _)|[(_ & _ & _ & u & -> & T)|(E & _)]]]]];
      try (rewrite Q in E; discriminate E).
    exists u. now split.
Qed.

Lemma cont_t_counts_run_witness :
  DFA.cont_t (DFA.steps (DFA.reset DFA.__init__) (str "xttxtttt")) = 4%Z.
Proof.
  apply (proj1 (cont_t_counts_run DFA.__init__ (str "xttxtttt"))).
  cbn. tauto.
Defined.

(** X8. The state reached from a reset instance says exactly what the
    consumed word [w] looks like: ['q_accept'] when [ttthh] has occurred;
    otherwise ['q4'] when [w] ends with [ttth], ['q3'] when it ends with at
    least three ['t'], ['q2'] and ['q1'] when it ends with exactly two and
    one, and ['q0'] in every other case. *)
Theorem state_tells_the_word (c0 : DFA.dfa) (w : list ascii) :
  let q := DFA.estado (DFA.steps (DFA.reset c0) w) in
  (q = "q_accept" <-> has_ttthh w) /\
  (q = "q4" <-> ~ has_ttthh w /\ ends_with w (str "ttth")) /\
  (q = "q3" <-> ~ has_ttthh w /\ 3 <= trailing_run "t" w) /\
  (q = "q2" <-> ~ has_ttthh w /\ trailing_run "t" w = 2) /\
  (q = "q1" <-> ~ has_ttthh w /\ trailing_run "t" w = 1) /\
  (q = "q0" <-> ~ has_ttthh w /\ trailing_run "t" w = 0 /\
                ~ ends_with w (str "ttth")).
Proof.
  pose proof (Track_steps c0 w) as T.
  pose proof (Inv_q4 _ _ (Inv_steps c0 w)) as I4.
  pose proof (accept_iff_ttthh c0 w) as A.
  pose proof (ends_ttth_trailing w) as Z0.
  unfold Track in T. cbn in I4, Z0 |- *.
  set (q := DFA.estado (DFA.steps (DFA.reset c0) w)) in *. clearbody q.
  destruct T as [(-> & _ & _ & T & N)|[(-> & _ & _ & T)|[(-> & _ & _ & T)|
                [(-> & G & _ & T)|[(-> & _)|(-> & _)]]]]].
  1-5: assert (Hn : ~ has_ttthh w)
         by (intros H; apply A in H; discriminate H).
  6: assert (Hy : has_ttthh w) by (now apply A).
  all: repeat split; intros; try discriminate; try tauto; try lia;
    try (exfalso; lia);
    try (exfalso; intuition (try discriminate; try lia; fail)).
  all: intuition (try discriminate; try lia).
Qed.

(** X9. Where [run] stops.  On [False] the instance is left in the
    configuration that the whole sequence produces.  On [True] the loop has
    stopped right behind the second ['h'] of the first drought in the
    sequence, nothing behind it has been read, [cont_h] is 2 and [cont_t]
    is the length of the run of ['t'] of that drought. *)
Theorem run_stops_behind_first_drought (c : DFA.dfa) (s : list ascii) :
  (fst (DFA.run c s) = false ->
   snd (DFA.run c s) = DFA.steps (DFA.reset c) s) /\
  (fst (DFA.run c s) = true ->
   exists u q, s = u ++ str "hh" ++ q /\
     snd (DFA.run c s) = DFA.steps (DFA.reset c) (u ++ str "hh") /\
     3 <= trailing_run "t" u /\ ~ has_ttthh (u ++ str "h") /\
     DFA.cont_t (snd (DFA.run c s)) = Z.of_nat (trailing_run "t" u) /\
     DFA.cont_h (snd (DFA.run c s)) = 2%Z).
Proof.
  unfold DFA.run. split; [apply run_loop_false|]. intros H.
  destruct (run_loop_true _ _ (reset_not_accept c) H)
    as (w & x & q & -> & Hs & Hn & Ha).
  pose proof (Track_steps c w) as T.
  destruct (step_into_accept _ _ _ T Hn Ha) as (-> & Q & Ht & Hh).
  assert (Hw : ~ has_ttthh w)
    by (intros Y; apply (accept_iff_ttthh c w) in Y; auto).
  unfold Track in T.
  destruct T as [(E & _)|[(E & _)|[(E & _)|
                [(E & _)|[(_ & G & _ & u & -> & T)|(E & _)]]]]];
    try (rewrite Q in E; discriminate E).
  exists u, q. rewrite Hs, Ht, Hh.
  repeat split; auto; try lia.
  - now rewrite <- app_assoc.
  - change (u ++ str "hh") with (u ++ str "h" ++ str "h").
    now rewrite app_assoc, (steps_app _ (u ++ str "h")).
Qed.

Lemma run_stops_behind_first_drought_witness :
  exists u q, str "xttttthhhx" = u ++ str "hh" ++ q /\
    snd (DFA.run DFA.__init__ (str "xttttthhhx")) =
      DFA.steps (DFA.reset DFA.__init__) (u ++ str "hh") /\
    3 <= trailing_run "t" u /\ ~ has_ttthh (u ++ str "h") /\
    DFA.cont_t (snd (DFA.run DFA.__init__ (str "xttttthhhx"))) =
      Z.of_nat (trailing_run "t" u) /\
    DFA.cont_h (snd (DFA.run DFA.__init__ (str "xttttthhhx"))) = 2%Z.
Proof.
  apply (proj2 (run_stops_behind_first_drought DFA.__init__ (str "xttttthhhx"))).
  reflexivity.
Defined.

(** X10. [run] on a sequence given in two parts.  If [run(u)] is [True],
    [run(u ++ v)] returns the same and leaves the same configuration: [v] is
    never read.  In every case [run(u ++ v)] is [True] exactly when feeding
    [v] through [step] to the instance that [run(u)] left reaches the
    accepting state. *)
Theorem run_of_appended (c : DFA.dfa) (u v : list ascii) :
  (fst (DFA.run c u) = true -> DFA.run c (u ++ v) = DFA.run c u) /\
  (fst (DFA.run c (u ++ v)) = true <->
   DFA.estado (DFA.steps (snd (DFA.run c u)) v) = "q_accept").
Proof.
  split; [apply run_loop_app_true|].
  destruct (fst (DFA.run c u)) eqn:B.
  - split; intros _.
    + apply accept_steps. unfold DFA.run in *.
      now apply run_loop_final; [apply reset_not_accept|].
    + unfold DFA.run in *. now rewrite run_loop_app_true.
  - unfold DFA.run in B |- * at 2. rewrite (run_loop_false _ _ B).
    rewrite <- steps_app. apply run_steps.
Qed.

Lemma run_of_appended_witness :
  DFA.run DFA.__init__ (str "ttthh" ++ str "ttt") =
  DFA.run DFA.__init__ (str "ttthh").
Proof.
  apply (proj1 (run_of_appended DFA.__init__ (str "ttthh") (str "ttt"))).
  reflexivity.
Defined.

(** X11. On configurations reached from a reset instance the counter tests
    of [step] always succeed: the test [cont_t >= 3] of line 69 and the test
    [cont_h >= 2] of line 88 are never false, and whenever line 60 is
    executed it assigns ['q2']. *)
Theorem counter_guards_never_fail (c0 : DFA.dfa) (w : list ascii) (s : ascii) :
  let c := DFA.steps (DFA.reset c0) w in
  let log := snd (DFA.step_trace c s) in
  ~ In (DFA.Test 69 false) log /\
  ~ In (DFA.Test 88 false) log /\
  (In (DFA.Assign 60) log -> DFA.estado (DFA.step c s) = "q2").
Proof.
  pose proof (Inv_steps c0 w) as I. cbv zeta.
  destruct (DFA.steps (DFA.reset c0) w) as [q ct ch].
  unfold Inv in I. cbn [DFA.estado DFA.cont_t DFA.cont_h] in I.
  destruct I as [(-> & -> & ->)|[(-> & -> & -> & _)|[(-> & -> & -> & _)|
                [(-> & Ht & -> & _)|[(-> & Ht & -> & _)|(-> & _)]]]]];
    unfold DFA.step_trace, DFA.step, DFA.reset_trace, DFA.branch, DFA.seq,
      DFA.pass, DFA.exec; cbn;
    destruct (s =? "t")%char; destruct (s =? "h")%char; cbn;
    (split; [|split]); intros H; try reflexivity;
    repeat (destruct H as [H|H]; [discriminate H|]); destruct H.
Qed.

Lemma counter_guards_never_fail_witness :
  DFA.estado (DFA.step (DFA.steps (DFA.reset DFA.__init__) (str "hht")) "t")
  = "q2".
Proof.
  apply (proj2 (proj2
    (counter_guards_never_fail DFA.__init__ (str "hht") "t"))).
  cbn. tauto.
Defined.

(** X12. From a reset instance the counters never change the course: the
    state after any sequence of [step] calls is the one that the six-state
    transition table [delta] gives, and [run] returns [True] exactly when
    that table leads to ['q_accept']. *)
Theorem steps_follow_delta (c0 : DFA.dfa) (w : list ascii) :
  DFA.estado (DFA.steps (DFA.reset c0) w) = fold_left delta w "q0" /\
  (fst (DFA.run c0 w) = true <-> fold_left delta w "q0" = "q_accept").
Proof.
  assert (H : DFA.estado (DFA.steps (DFA.reset c0) w) = fold_left delta w "q0").
  { induction w as [|s w IH] using rev_ind; [reflexivity|].
    rewrite steps_app, fold_left_app. cbn.
    rewrite (step_delta _ w s (Inv_steps c0 w)). now rewrite IH. }
  split; [exact H|]. rewrite <- H. apply run_steps.
Qed.

(* ====================================================================== *)
(** ** Further properties: the stack automaton and the example run         *)
(* ====================================================================== *)

Lemma acepta_true_inv (s : list ascii) :
  PDA.acepta s = PDA.Returns true -> exists n, 1 <= n /\ s = tnhm n n.
Proof.
  destruct (shape s) as (a & b & r & -> & Hh & Ht).
  rewrite acepta_shape by assumption. intros [= H].
  apply andb_prop in H. destruct H as [H Hr].
  apply andb_prop in H. destruct H as [Ha Hab].
  apply Nat.ltb_lt in Ha. apply Nat.eqb_eq in Hab. subst b.
  destruct r; [|discriminate].
  exists a. split; [lia | apply app_nil_r].
Qed.


Lemma run_length_leading (c : ascii) (n : nat) (r : list ascii) :
  hd_error r <> Some c -> Regex.run_length c (repeat c n ++ r) = n.
Proof.
  intros Hr. induction n as [|n IH]; cbn.
  - destruct r as [|x r]; [reflexivity|]. cbn in Hr |- *.
    destruct (Ascii.eqb_spec x c); [congruence | reflexivity].
  - now rewrite Ascii.eqb_refl, IH.
Qed.

(** X13. An accepted sequence has no accepted continuation: once
    [acepta(s)] is [True], [acepta(s ++ s')] is [True] only for the empty
    [s']. *)
Theorem acepta_no_continuation (s s' : list ascii) :
  PDA.acepta s = PDA.Returns true ->
  PDA.acepta (s ++ s') = PDA.Returns (PDA.vacia s').
Proof.
  intros H. destruct (acepta_true_inv s H) as (n & Hn & ->).
  destruct (leading_run "h"%char s') as (b & r & -> & Hr).
  replace (tnhm n n ++ repeat "h"%char b ++ r) with (tnhm n (n + b) ++ r)
    by (unfold tnhm; now rewrite repeat_app, <- !app_assoc).
  rewrite acepta_shape by (auto; lia). f_equal.
  destruct (Nat.ltb_spec 0 n); [|lia].
  destruct b as [|b]; cbn [repeat app PDA.vacia andb].
  - now rewrite Nat.add_0_r, Nat.eqb_refl.
  - destruct (Nat.eqb_spec n (n + S b)); [lia | reflexivity].
Qed.

Lemma acepta_no_continuation_witness :
  PDA.acepta (str "tthh" ++ str "th") = PDA.Returns false.
Proof.
  apply (acepta_no_continuation (str "tthh") (str "th")). reflexivity.
Defined.

(** X14. The two automata on the same sequence: a sequence that [acepta]
    accepts is a drought for [run] exactly when it has at least six
    characters, that is, at least three ['t']. *)
Theorem accepted_is_drought_from_six (c : DFA.dfa) (s : list ascii) :
  PDA.acepta s = PDA.Returns true ->
  (fst (DFA.run c s) = true <-> 6 <= length s).
Proof.
  intros H. destruct (acepta_true_inv s H) as (n & Hn & ->).
  unfold tnhm. rewrite length_app, !repeat_length.
  destruct (Nat.le_gt_cases 3 n) as [H3|H3].
  - split; [lia | intros _]. apply run_ttthh, drought_iff_ttthh.
    exists [], [], n, n. repeat split; try lia.
    cbn. now rewrite app_nil_r.
  - assert (E : n = 1 \/ n = 2) by lia.
    destruct E as [->| ->]; cbn; split; (discriminate || lia).
Qed.

Lemma accepted_is_drought_from_six_witness :
  fst (DFA.run DFA.__init__ (str "tttthhhh")) = true.
Proof.
  apply (accepted_is_drought_from_six DFA.__init__ (str "tttthhhh"));
    [reflexivity | cbn; lia].
Defined.

(** X15. What the first loop of [acepta] leaves behind, for every sequence
    and every iteration budget above its length: the index [i] is the
    number of leading ['t'], the stack holds that many markers ['T'] and
    nothing else, and [visto_t] says whether there was any. *)
Theorem first_loop_counts_leading_t (fuel : nat) (s : list ascii) :
  length s < fuel ->
  let k := Regex.run_length "t" s in
  PDA.loop_t fuel s (length s) (PDA.mkLocals [] false 0) =
  PDA.Returns (PDA.mkLocals (repeat "T"%char k) (0 <? k)%nat k).
Proof.
  intros Hf k. subst k.
  destruct (leading_run "t"%char s) as (a & r & E & Hr).
  assert (Ha : a <= length s)
    by (rewrite E, length_app, repeat_length; lia).
  replace (Regex.run_length "t" s) with a
    by (rewrite E; symmetry; now apply run_length_leading).
  change (PDA.mkLocals [] false 0)
    with (PDA.mkLocals (repeat "T"%char 0) false (length (@nil ascii))).
  apply (loop_t_spec a fuel 0 false [] r s); auto; lia.
Qed.

Lemma first_loop_counts_leading_t_witness :
  PDA.loop_t 9 (str "ttthtx") 6 (PDA.mkLocals [] false 0) =
  PDA.Returns (PDA.mkLocals (str "TTT") true 3).
Proof.
  apply (first_loop_counts_leading_t 9 (str "ttthtx")). cbn. lia.
Defined.

Lemma si_no_si (b : bool) : Main.si_no b = "Sí" <-> b = true.
Proof. destruct b; cbn; split; auto; discriminate. Qed.

Lemma run_fresh (c : DFA.dfa) (s : list ascii) :
  DFA.run c s = DFA.run DFA.__init__ s.
Proof. reflexivity. Qed.

Lemma bucle_dfa_desde_map (ejemplos : list (list ascii)) :
  forall dfa,
    fst (Main.bucle_dfa_desde dfa ejemplos) =
    map (fun s => (s, Main.si_no (fst (DFA.run DFA.__init__ s)))) ejemplos.
Proof.
  induction ejemplos as [|s resto IH]; intros dfa; cbn [Main.bucle_dfa_desde map];
    [reflexivity|].
  rewrite (run_fresh dfa s).
  destruct (DFA.run DFA.__init__ s) as [b dfa'].
  specialize (IH dfa').
  destruct (Main.bucle_dfa_desde dfa' resto) as [lineas dfa''].
  cbn in *. now rewrite IH.
Qed.

(** X16. The second loop of the example run uses one instance for all
    examples, and for every list of examples and whatever that instance
    held at the start, the lines it prints are those of a new instance per
    example: the line of a sequence says ['Sí'] exactly when the sequence
    contains a drought. *)
Theorem bucle_dfa_verdicts (dfa : DFA.dfa) (ejemplos : list (list ascii)) :
  fst (Main.bucle_dfa_desde dfa ejemplos) =
    map (fun s => (s, Main.si_no (fst (DFA.run DFA.__init__ s)))) ejemplos /\
  Forall (fun linea => snd linea = "Sí" <-> drought (fst linea))
         (fst (Main.bucle_dfa_desde dfa ejemplos)).
Proof.
  split; [apply bucle_dfa_desde_map|].
  rewrite bucle_dfa_desde_map. apply Forall_map, Forall_forall.
  intros s _. cbn [fst snd]. rewrite si_no_si, drought_iff_ttthh.
  apply run_ttthh.
Qed.

(** X17. The first two loops of the example run agree on every list of
    examples: line by line they report the same sequence, and the automaton
    says ['Sí'] exactly when the list of drought matches printed for that
    sequence is not empty. *)
Theorem bucle_dfa_agrees_with_regex (ejemplos : list (list ascii)) :
  Forall2 (fun r d => fst (fst r) = fst d /\
                      (snd d = "Sí" <-> snd (fst r) <> []))
          (Main.bucle_regex ejemplos) (fst (Main.bucle_dfa ejemplos)).
Proof.
  unfold Main.bucle_dfa, Main.bucle_regex. rewrite bucle_dfa_desde_map.
  induction ejemplos as [|s resto IH]; cbn [map]; constructor; auto.
  cbn [fst snd]. split; [reflexivity|].
  rewrite si_no_si, sequia_drought, drought_iff_ttthh.
  apply run_ttthh.
Qed.


(** The verdicts of the run on the lists written in the block. *)
Example bucle_dfa_ejemplos :
  map snd (fst (Main.bucle_dfa Main.ejemplos)) =
  ["Sí"; "Sí"; "No"; "Sí"; "No"; "No"; "No"; "Sí"].
Proof. reflexivity. Qed.

Example bucle_pda_ejemplos :
  Main.bucle_pda Main.ejemplos_pda =
  PDA.Returns (combine Main.ejemplos_pda ["Sí"; "Sí"; "Sí"; "No"; "No"; "No"]).
Proof. reflexivity. Qed.

Example bucle_regex_ejemplos :
  map (fun r => (snd (fst r), snd r)) (Main.bucle_regex Main.ejemplos) =
  [ ([str "ttthh"], []); ([str "ttthh"], []); ([], []);
    ([str "tttthhh"], []); ([], []); ([], [str "rrxxx"]);
    ([], [str "rrxxxx"]); ([str "tttthhhh"], []) ].
Proof. reflexivity. Qed.
